(** * cleanup_empty_csvs.py: removal of header-only CSV files

    A shallow embedding of [src/cleanup_empty_csvs.py] and the properties
    its specification states about it.

    The script is a thin layer over the Python runtime: [open] with
    [encoding='utf-8'] and [newline=''], [csv.reader], [pathlib.Path.glob],
    [os.path.isdir], [os.remove] and [print].  The three functions of the
    script ([is_empty_csv], [cleanup_directory], [main]) are embedded
    statement by statement in a state-and-exception monad; the runtime they
    call is modelled below, each piece next to a note of what it stands for:

    - text decoding follows the UTF-8 incremental decoder, which rejects a
      byte as soon as no continuation can make the sequence valid;
    - the text layer hands out lines lazily, one block of [chunk_size]
      bytes at a time, so an undecodable byte is only noticed when the
      block that holds it is fetched;
    - the CSV reader is the character automaton of CPython 3.11/3.12's
      [_csv] module for the default dialect (double-quote character, doubled
      quotes, no escape character, non-strict), with the delimiter as its
      only parameter and the default field size limit;
    - the file system is a finite map from paths to inodes. *)

From Stdlib Require Import NArith ZArith Lia.
From Stdlib Require Import Strings.Ascii Strings.Byte.
From stdpp Require Import base option list gmap strings fin_maps.

Set Default Proof Using "Type".
Local Open Scope N_scope.

(** ** Python values *)

(** A Python [str] is a sequence of code points. *)
Abbreviation str := (list N).

(** A file-system path, as a list of components below the root. *)
Abbreviation path := (list string).

Definition LF : N := 10.
Definition CR : N := 13.
Definition TAB : N := 9.
Definition SPACE : N := 32.
Definition DQUOTE : N := 34.
Definition COMMA : N := 44.
Definition PIPE : N := 124.

(** The code points of an ASCII literal. *)
Fixpoint str_of (s : string) : str :=
  match s with
  | EmptyString => []
  | String a s' => N_of_ascii a :: str_of s'
  end.

(** The bytes of an ASCII literal. *)
Fixpoint bytes_of (s : string) : list byte :=
  match s with
  | EmptyString => []
  | String a s' => byte_of_ascii a :: bytes_of s'
  end.

(** ** UTF-8 decoding *)

Module Utf8.

(** State of the decoder between two bytes: either at a character
    boundary, or inside a multi-byte sequence with [more] continuation
    bytes still to come after the next one, the bits gathered so far in
    [acc], and the next byte required to lie in [lo .. hi].  The first
    continuation byte has a narrowed range after the lead bytes E0, ED,
    F0 and F4 (no over-long forms, no surrogates, nothing above
    U+10FFFF). *)
Inductive state :=
| Boundary
| Inside (more : nat) (acc lo hi : N).

Inductive step_result :=
| Emit (c : N)
| More (st : state)
| Reject.

Definition lead (b : N) : step_result :=
  if b <? 0x80 then Emit b
  else if b <? 0xC2 then Reject
  else if b <? 0xE0 then More (Inside 0 (b - 0xC0) 0x80 0xBF)
  else if b =? 0xE0 then More (Inside 1 0 0xA0 0xBF)
  else if b =? 0xED then More (Inside 1 0xD 0x80 0x9F)
  else if b <? 0xF0 then More (Inside 1 (b - 0xE0) 0x80 0xBF)
  else if b =? 0xF0 then More (Inside 2 0 0x90 0xBF)
  else if b <? 0xF4 then More (Inside 2 (b - 0xF0) 0x80 0xBF)
  else if b =? 0xF4 then More (Inside 2 4 0x80 0x8F)
  else Reject.

Definition step (st : state) (b : N) : step_result :=
  match st with
  | Boundary => lead b
  | Inside more acc lo hi =>
      if (lo <=? b) && (b <=? hi) then
        let acc' := acc * 64 + (b - 0x80) in
        match more with
        | O => Emit acc'
        | S more' => More (Inside more' acc' 0x80 0xBF)
        end
      else Reject
  end.

(** How decoding of a byte string ends: cleanly, inside a sequence that
    the end of the data cuts short, or at the byte with the given index
    (counted from the first byte given), the first one that cannot be
    part of any well-formed text. *)
Inductive ending :=
| Clean
| Truncated
| Invalid (at_byte : nat).

Definition shift (e : ending) : ending :=
  match e with
  | Invalid n => Invalid (S n)
  | _ => e
  end.

(** The characters decoded before decoding ends, and how it ends. *)
Fixpoint decode_from (st : state) (bs : list byte) : str * ending :=
  match bs with
  | [] => ([], match st with Boundary => Clean | Inside _ _ _ _ => Truncated end)
  | b :: bs' =>
      match step st (Byte.to_N b) with
      | Emit c => let '(t, e) := decode_from Boundary bs' in (c :: t, shift e)
      | More st' => let '(t, e) := decode_from st' bs' in (t, shift e)
      | Reject => ([], Invalid 0)
      end
  end.

Definition decode (bs : list byte) : str * ending := decode_from Boundary bs.

End Utf8.


(** ** Exceptions *)

Inductive errno := ENOENT | EACCES | EISDIR.

(** Reasons for which [csv.reader] raises [csv.Error] in the default
    dialect. *)
Inductive csv_reason :=
| FieldLargerThanLimit
| NewlineInUnquotedField.

(** The exceptions of the modelled runtime; every one of them is an
    instance of [Exception].  [UnicodeDecodeError] and [csv_Error] are the
    two classes that [is_empty_csv] handles itself. *)
Inductive exn :=
| OSError (code : errno) (filename : path)
| UnicodeDecodeError
| csv_Error (reason : csv_reason)
| TypeError
| ValueError (directory_path : path).

Inductive outcome (A : Type) :=
| Return (a : A)
| Raise (e : exn).
Arguments Return {A} a.
Arguments Raise {A} e.

(** ** The text layer: [open(file_path, 'r', newline='', encoding='utf-8')] *)

Module TextIO.

(** What one [next] on the open file yields: a line with its terminator,
    or [UnicodeDecodeError]; the end of the list is the end of the
    file. *)
Inductive line_event :=
| Line (l : str)
| DecodeFault.

(** [newline=''] recognises the terminators LF, CR and CR LF and leaves
    them in the line.  [split_lines text] gives the lines of [text] that
    are known to be complete and the text that follows them.  A CR that
    is the last character is not yet a terminator: the decoder holds it
    back until it has seen whether LF follows. *)
Fixpoint split_lines (text : str) : list str * str :=
  match text with
  | [] => ([], [])
  | c :: rest =>
      if c =? LF then
        let '(ls, tl) := split_lines rest in ([c] :: ls, tl)
      else if c =? CR then
        match rest with
        | [] => ([], [c])
        | c2 :: rest2 =>
            if c2 =? LF then
              let '(ls, tl) := split_lines rest2 in ([c; c2] :: ls, tl)
            else
              let '(ls, tl) := split_lines rest in ([c] :: ls, tl)
        end
      else
        let '(ls, tl) := split_lines rest in
        match ls with
        | [] => ([], c :: tl)
        | l :: ls' => ((c :: l) :: ls', tl)
        end
  end.

(** At the end of the file what is left over is the last line. *)
Definition all_lines (text : str) : list str :=
  let '(ls, tl) := split_lines text in
  ls ++ match tl with [] => [] | _ :: _ => [tl] end.

(** The file is fetched in blocks of [chunk_size] bytes, and a block is
    fetched only when the text decoded so far holds no complete line.
    When the byte with index [at_byte] is the one the decoder rejects,
    the blocks before the one that holds it have been decoded without
    error: this is the number of bytes in them. *)
Definition fetched_before (chunk_size : positive) (at_byte : nat) : nat :=
  N.to_nat (N.of_nat at_byte / Npos chunk_size * Npos chunk_size).

(** The successive results of [next] on a file with the given bytes.
    Well-formed text gives all its lines.  Otherwise the reader gets the
    lines that are complete in the text decoded before the fault, and
    then the fault: a sequence cut short by the end of the file is
    reported when the end of the file is reached. *)
Definition readlines (chunk_size : positive) (content : list byte)
  : list line_event :=
  match Utf8.decode content with
  | (text, Utf8.Clean) => Line <$> all_lines text
  | (text, Utf8.Truncated) => (Line <$> (split_lines text).1) ++ [DecodeFault]
  | (_, Utf8.Invalid n) =>
      let seen := take (fetched_before chunk_size n) content in
      (Line <$> (split_lines (Utf8.decode seen).1).1) ++ [DecodeFault]
  end.

End TextIO.
Export TextIO (line_event, Line, DecodeFault).

(** ** The CSV reader: [csv.reader(csvfile, delimiter=delimiter)] *)

Module Csv.

(** States of the automaton.  The three escape states of [_csv] are
    entered only on the dialect's escape character, which the default
    dialect does not have. *)
Inductive parser_state :=
| START_RECORD
| START_FIELD
| IN_FIELD
| IN_QUOTED_FIELD
| QUOTE_IN_QUOTED_FIELD
| EAT_CRNL.

(** The automaton reads the characters of a line and then an
    end-of-line mark. *)
Inductive input_char :=
| Ch (c : N)
| EOL.

Record parser := mkParser {
  state : parser_state;
  fields : list str;      (** fields of the record read so far *)
  field : str;            (** characters of the field being read *)
  field_len : N
}.

(** [csv.field_size_limit()], which the script leaves at its default. *)
Definition field_limit : N := 131072.

Definition quotechar : N := DQUOTE.

Definition parse_reset : parser := mkParser START_RECORD [] [] 0.

Definition set_state (p : parser) (st : parser_state) : parser :=
  mkParser st (fields p) (field p) (field_len p).

Definition parse_save_field (p : parser) : parser :=
  mkParser (state p) (fields p ++ [field p]) [] 0.

Definition parse_add_char (p : parser) (c : N) : outcome parser :=
  if field_limit <=? field_len p then Raise (csv_Error FieldLargerThanLimit)
  else Return (mkParser (state p) (fields p) (field p ++ [c]) (field_len p + 1)).

Definition is_newline (c : input_char) : bool :=
  match c with
  | Ch c => (c =? LF) || (c =? CR)
  | EOL => false
  end.

Definition is_char (c : input_char) (d : N) : bool :=
  match c with
  | Ch c => c =? d
  | EOL => false
  end.

Definition after_line_end (c : input_char) : parser_state :=
  match c with
  | EOL => START_RECORD
  | Ch _ => EAT_CRNL
  end.

Definition start_field (delimiter : N) (p : parser) (c : input_char)
  : outcome parser :=
  match c with
  | EOL => Return (set_state (parse_save_field p) START_RECORD)
  | Ch ch =>
      if is_newline c then Return (set_state (parse_save_field p) EAT_CRNL)
      else if ch =? quotechar then Return (set_state p IN_QUOTED_FIELD)
      else if ch =? delimiter then Return (parse_save_field p)
      else
        match parse_add_char p ch with
        | Return p' => Return (set_state p' IN_FIELD)
        | Raise e => Raise e
        end
  end.

Definition parse_process_char (delimiter : N) (p : parser) (c : input_char)
  : outcome parser :=
  match state p with
  | START_RECORD =>
      match c with
      | EOL => Return p
      | Ch ch =>
          if is_newline c then Return (set_state p EAT_CRNL)
          else start_field delimiter (set_state p START_FIELD) c
      end
  | START_FIELD => start_field delimiter p c
  | IN_FIELD =>
      match c with
      | EOL => Return (set_state (parse_save_field p) START_RECORD)
      | Ch ch =>
          if is_newline c then Return (set_state (parse_save_field p) EAT_CRNL)
          else if ch =? delimiter then
            Return (set_state (parse_save_field p) START_FIELD)
          else parse_add_char p ch
      end
  | IN_QUOTED_FIELD =>
      match c with
      | EOL => Return p
      | Ch ch =>
          if ch =? quotechar then Return (set_state p QUOTE_IN_QUOTED_FIELD)
          else parse_add_char p ch
      end
  | QUOTE_IN_QUOTED_FIELD =>
      match c with
      | EOL => Return (set_state (parse_save_field p) START_RECORD)
      | Ch ch =>
          if ch =? quotechar then
            match parse_add_char p ch with
            | Return p' => Return (set_state p' IN_QUOTED_FIELD)
            | Raise e => Raise e
            end
          else if ch =? delimiter then
            Return (set_state (parse_save_field p) START_FIELD)
          else if is_newline c then
            Return (set_state (parse_save_field p) EAT_CRNL)
          else
            match parse_add_char p ch with
            | Return p' => Return (set_state p' IN_FIELD)
            | Raise e => Raise e
            end
      end
  | EAT_CRNL =>
      match c with
      | EOL => Return (set_state p START_RECORD)
      | Ch ch =>
          if is_newline c then Return p
          else Raise (csv_Error NewlineInUnquotedField)
      end
  end.

(** The characters of one line, then the end-of-line mark. *)
Fixpoint process_chars (delimiter : N) (p : parser) (l : str) : outcome parser :=
  match l with
  | [] => parse_process_char delimiter p EOL
  | c :: l' =>
      match parse_process_char delimiter p (Ch c) with
      | Return p' => process_chars delimiter p' l'
      | Raise e => Raise e
      end
  end.

(** Result of [next(reader)]. *)
Inductive iter_result :=
| Row (row : list str)
| StopIteration
| Raised (e : exn).

(** The loop of [Reader_iternext]: lines are taken from the input until
    the automaton is back at the start of a record.  When the input ends
    inside a record (a quoted field left open), what was read is the
    record.  The second component is what is left of the input. *)
Fixpoint iternext_loop (delimiter : N) (p : parser) (input : list line_event)
  : iter_result * list line_event :=
  match input with
  | [] =>
      if negb (field_len p =? 0) || match state p with IN_QUOTED_FIELD => true | _ => false end
      then (Row (fields (parse_save_field p)), [])
      else (StopIteration, [])
  | DecodeFault :: rest => (Raised UnicodeDecodeError, rest)
  | Line l :: rest =>
      match process_chars delimiter p l with
      | Raise e => (Raised e, rest)
      | Return p' =>
          match state p' with
          | START_RECORD => (Row (fields p'), rest)
          | _ => iternext_loop delimiter p' rest
          end
      end
  end.

Record reader := mkReader {
  dialect_delimiter : N;
  input_iter : list line_event
}.

Definition Reader_iternext (r : reader) : iter_result * reader :=
  let '(res, rest) := iternext_loop (dialect_delimiter r) parse_reset (input_iter r) in
  (res, mkReader (dialect_delimiter r) rest).

(** The constructor checks that the delimiter is a string of one
    character. *)
Definition new_reader (csvfile : list line_event) (delimiter : str) : outcome reader :=
  match delimiter with
  | [d] => Return (mkReader d csvfile)
  | _ => Raise TypeError
  end.

(** The file read to its end, as [list(reader)] would: the records in
    order, and whether the end of the file was reached or an exception
    stopped the reading. *)
Fixpoint records_from (delimiter : N) (p : parser) (input : list line_event)
  : list (list str) * option exn :=
  match input with
  | [] =>
      if negb (field_len p =? 0) || match state p with IN_QUOTED_FIELD => true | _ => false end
      then ([fields (parse_save_field p)], None)
      else ([], None)
  | DecodeFault :: rest => ([], Some UnicodeDecodeError)
  | Line l :: rest =>
      match process_chars delimiter p l with
      | Raise e => ([], Some e)
      | Return p' =>
          match state p' with
          | START_RECORD =>
              let '(rs, e) := records_from delimiter parse_reset rest in
              (fields p' :: rs, e)
          | _ => records_from delimiter p' rest
          end
      end
  end.

Definition records (delimiter : N) (input : list line_event)
  : list (list str) * option exn :=
  records_from delimiter parse_reset input.

End Csv.

(** ** The process state: file system, output streams, the walker's counters *)

Inductive kind :=
| Directory
| Regular (content : list byte).

(** An entry of the file system.  [i_readable] says whether the process may
    open the entry for reading, [i_unlinkable] whether it may remove it
    (which on a real system is a matter of the parent directory). *)
Record inode := mkInode {
  i_kind : kind;
  i_readable : bool;
  i_unlinkable : bool
}.

Inductive stream := stdout | stderr.

(** The lines the script prints, by the format string that produces them. *)
Inductive message :=
| WarningCouldNotProcess (file_path : path) (e : exn)
    (** [Warning: Could not process {file_path}: {str(e)}] *)
| FoundCsvFiles (n : nat) (directory_path : path) (recursive : bool)
    (** [Found {len(csv_files)} CSV files in {directory_path}] *)
| WouldDelete (file_path : path)
| Deleted (file_path : path)
| Keeping (file_path : path)
| ErrorProcessing (file_path : path) (e : exn)
    (** [Error processing {file_path}: {str(e)}] *)
| ErrorScanning (directory_path : path) (e : exn)
| ErrorDoesNotExist (directory_path : path)
    (** [Error: Directory '{directory_path}' does not exist] *)
| ErrorNotADirectory (directory_path : path)
    (** [Error: '{directory_path}' is not a directory] *)
| ProcessingDirectory (directory_path : path)
| Mode (dry_run : bool)
| Delimiter (delimiter : str)
| Recursive (recursive : bool)
| Summary
| FilesChecked (files_checked : nat)
| EmptyFiles (dry_run : bool) (files_deleted : nat)
    (** [Empty files {would be deleted | deleted}: {files_deleted}] *)
| ErrorTop (e : exn).
    (** [Error: {str(e)}] *)

(** [files_checked] and [files_deleted] are the two local variables of
    [cleanup_directory].  [counter_log] is not in the script: it records the
    pair of counters after each assignment to one of them, oldest first, so
    that properties of every intermediate point can be stated. *)
Record world := mkWorld {
  w_fs : gmap path inode;
  w_out : list (stream * message);
  files_checked : nat;
  files_deleted : nat;
  counter_log : list (nat * nat)
}.

(** ** A state and exception monad *)

Definition M (A : Type) : Type := world → outcome A * world.

Definition ret {A} (a : A) : M A := λ w, (Return a, w).

Definition bind {A B} (m : M A) (k : A → M B) : M B :=
  λ w, match m w with
       | (Return a, w') => k a w'
       | (Raise e, w') => (Raise e, w')
       end.

Definition raise {A} (e : exn) : M A := λ w, (Raise e, w).

(** [try: body / except classes as e: handler e]; [classes] tells which
    exceptions the clause matches. *)
Definition try_except {A} (body : M A) (classes : exn → bool) (handler : exn → M A) : M A :=
  λ w, match body w with
       | (Return a, w') => (Return a, w')
       | (Raise e, w') => if classes e then handler e w' else (Raise e, w')
       end.

Notation "x <- m ; k" := (bind m (λ x, k))
  (at level 100, m at next level, right associativity,
   format "'[v' x  <-  m ; '/' k ']'").
Notation "m ;; k" := (bind m (λ _, k))
  (at level 100, right associativity, format "'[v' m ;; '/' k ']'").

(** [for x in xs: body x] *)
Fixpoint for_each {A} (xs : list A) (body : A → M unit) : M unit :=
  match xs with
  | [] => ret tt
  | x :: xs' => body x;; for_each xs' body
  end.

Definition when (b : bool) (m : M unit) : M unit := if b then m else ret tt.

(** [except Exception] *)
Definition Exception (e : exn) : bool := true.

(** [except (UnicodeDecodeError, csv.Error)] *)
Definition UnicodeDecodeError_or_csv_Error (e : exn) : bool :=
  match e with
  | UnicodeDecodeError | csv_Error _ => true
  | _ => false
  end.

(** ** Runtime operations *)

(** The world after some more lines of output. *)
Definition emit (w : world) (lines : list (stream * message)) : world :=
  mkWorld (w_fs w) (w_out w ++ lines)
          (files_checked w) (files_deleted w) (counter_log w).

Definition print (file : stream) (m : message) : M unit :=
  λ w, (Return tt, emit w [(file, m)]).

Definition is_directory (fs : gmap path inode) (p : path) : bool :=
  match fs !! p with
  | Some (mkInode Directory _ _) => true
  | _ => false
  end.

Definition os_path_isdir (p : path) : M bool :=
  λ w, (Return (is_directory (w_fs w) p), w).

Definition os_path_exists (p : path) : M bool :=
  λ w, (Return (bool_decide (is_Some (w_fs w !! p))), w).

(** [os.remove]: only a regular file that the process may unlink is
    removed. *)
Definition os_remove (p : path) : M unit :=
  λ w, match w_fs w !! p with
       | None => (Raise (OSError ENOENT p), w)
       | Some (mkInode Directory _ _) => (Raise (OSError EISDIR p), w)
       | Some (mkInode (Regular _) _ false) => (Raise (OSError EACCES p), w)
       | Some (mkInode (Regular _) _ true) =>
           (Return tt,
            mkWorld (delete p (w_fs w)) (w_out w)
                    (files_checked w) (files_deleted w) (counter_log w))
       end.

(** What opening an entry for reading as text gives: the lines its
    iteration will yield, or the [OSError] of [open]. *)
Definition open_inode (chunk_size : positive) (p : path) (i : option inode)
  : outcome (list line_event) :=
  match i with
  | None => Raise (OSError ENOENT p)
  | Some (mkInode Directory _ _) => Raise (OSError EISDIR p)
  | Some (mkInode (Regular _) false _) => Raise (OSError EACCES p)
  | Some (mkInode (Regular content) true _) =>
      Return (TextIO.readlines chunk_size content)
  end.

Definition open_text (chunk_size : positive) (p : path) : M (list line_event) :=
  λ w, (open_inode chunk_size p (w_fs w !! p), w).

(** [next(reader, None)] *)
Definition next_or_None (r : Csv.reader) : M (option (list str) * Csv.reader) :=
  match Csv.Reader_iternext r with
  | (Csv.Row row, r') => ret (Some row, r')
  | (Csv.StopIteration, r') => ret (None, r')
  | (Csv.Raised e, _) => raise e
  end.

(** The pattern [*.csv] on a file name, case-sensitive. *)
Definition fnmatch_csv (name : string) : bool :=
  let n := String.length name in
  bool_decide (4 ≤ n)%nat && String.eqb (String.substring (n - 4) 4 name) ".csv".

(** Whether the entry at [dir ++ rel] is found by a scan that starts in
    the directory [dir]: it exists, its name matches, and the scan reaches
    it through directories only. *)
Fixpoint scan_reaches (fs : gmap path inode) (dir : path) (rel : path) : bool :=
  match rel with
  | [] => false
  | [name] =>
      is_directory fs dir && fnmatch_csv name
      && bool_decide (is_Some (fs !! (dir ++ [name])))
  | name :: rel' => is_directory fs dir && scan_reaches fs (dir ++ [name]) rel'
  end.

Definition glob_matches (fs : gmap path inode) (dir : path) (recursive : bool)
    (p : path) : bool :=
  let rel := drop (length dir) p in
  bool_decide (take (length dir) p = dir)
  && (recursive || bool_decide (length rel = 1%nat))
  && scan_reaches fs dir rel.

(** [list(pathlib.Path(directory_path).glob(pattern))] with [pattern] one
    of [*.csv] and [**/*.csv].  The order of the result is that in which the
    map enumerates its entries.  The scan of the model always succeeds, and
    so does [print]: the handler around the loop of [cleanup_directory] is
    embedded as written, but nothing here makes it run. *)
Definition glob_list (fs : gmap path inode) (directory_path : path)
    (recursive : bool) : list path :=
  filter (λ p, glob_matches fs directory_path recursive p = true)
         (map_to_list fs).*1.

Definition glob (directory_path : path) (recursive : bool) : M (list path) :=
  λ w, (Return (glob_list (w_fs w) directory_path recursive), w).

(** Assignments to the two counters. *)
Definition init_counters : M unit :=
  λ w, (Return tt, mkWorld (w_fs w) (w_out w) 0 0 [(0, 0)%nat]).

Definition incr_files_checked : M unit :=
  λ w, let c := S (files_checked w) in
       (Return tt, mkWorld (w_fs w) (w_out w) c (files_deleted w)
                           (counter_log w ++ [(c, files_deleted w)])).

Definition incr_files_deleted : M unit :=
  λ w, let d := S (files_deleted w) in
       (Return tt, mkWorld (w_fs w) (w_out w) (files_checked w) d
                           (counter_log w ++ [(files_checked w, d)])).

Definition get_counters : M (nat * nat) :=
  λ w, (Return (files_checked w, files_deleted w), w).

(** ** The script *)

(** The command line after [argparse]. *)
Record arguments := mkArgs {
  directory : str;
  dry_run : bool;
  verbose : bool;
  recursive : bool;
  delimiter : str
}.

Definition is_ascii (c : N) : bool := c <? 128.

Definition ascii_lower (c : N) : N :=
  if (65 <=? c) && (c <=? 90) then c + 32 else c.

Section Script.

(** What the script leaves to the platform: the size of the blocks in
    which the text layer fetches a file, [str.lower] on strings that are
    not pure ASCII, and [os.path.abspath] (which depends on the working
    directory). *)
Variable chunk_size : positive.
Variable unicode_lower : str → str.
Variable abspath : str → path.

(** [str.lower] *)
Definition lower (s : str) : str :=
  if forallb is_ascii s then ascii_lower <$> s else unicode_lower s.

(** The body of the [try] in [is_empty_csv]: the file is opened, a reader
    is made for it, and two records are asked for. *)
Definition read_header_and_row (file_path : path) (delimiter : str) : M bool :=
  csvfile <- open_text chunk_size file_path;
  reader <- (match Csv.new_reader csvfile delimiter with
             | Return r => ret r
             | Raise e => raise e
             end);
  (* Read the header *)
  header <- next_or_None reader;
  (* Try to read the first data row *)
  row <- next_or_None header.2;
  ret (bool_decide (row.1 = None)).

(** [is_empty_csv(file_path, delimiter)] *)
Definition is_empty_csv (file_path : path) (delimiter : str) : M bool :=
  try_except
    (read_header_and_row file_path delimiter)
    UnicodeDecodeError_or_csv_Error
    (λ e,
       print stderr (WarningCouldNotProcess file_path e);;
       (* If we can't read it as a CSV, we shouldn't delete it *)
       ret false).

(** The body of the [try] inside the loop of [cleanup_directory]. *)
Definition process_file (delimiter : str) (dry_run verbose : bool)
    (file_path : path) : M unit :=
  empty <- is_empty_csv file_path delimiter;
  if empty then
    if dry_run then
      print stdout (WouldDelete file_path)
    else
      os_remove file_path;;
      incr_files_deleted;;
      when verbose (print stdout (Deleted file_path))
  else
    when verbose (print stdout (Keeping file_path)).

(** One turn of the loop of [cleanup_directory]. *)
Definition loop_body (delimiter : str) (dry_run verbose : bool)
    (file_path : path) : M unit :=
  incr_files_checked;;
  try_except
    (process_file delimiter dry_run verbose file_path)
    Exception
    (λ e, print stderr (ErrorProcessing file_path e)).

(** [cleanup_directory(directory_path, delimiter, dry_run, verbose, recursive)] *)
Definition cleanup_directory (directory_path : path) (delimiter : str)
    (dry_run verbose recursive : bool) : M (nat * nat) :=
  isdir <- os_path_isdir directory_path;
  if negb isdir then
    raise (ValueError directory_path)
  else
    init_counters;;
    try_except
      (csv_files <- glob directory_path recursive;
       when verbose
         (print stdout (FoundCsvFiles (length csv_files) directory_path recursive));;
       for_each csv_files (loop_body delimiter dry_run verbose);;
       get_counters)
      Exception
      (λ e,
         print stderr (ErrorScanning directory_path e);;
         get_counters).

(** The block of [main] that handles special delimiter values. *)
Definition special_delimiter (arg : str) : str :=
  if bool_decide (lower arg = str_of "pipe") then [PIPE]
  else if bool_decide (lower arg = str_of "tab") then [TAB]
  else arg.

(** [main()], from the parsed arguments to the exit status.  The handler
    for [KeyboardInterrupt] is left out: the interrupt is a signal from
    outside, which no operation modelled here raises. *)
Definition main (args : arguments) : M Z :=
  let delimiter := special_delimiter (delimiter args) in
  try_except
    (let directory_path := abspath (directory args) in
     ex <- os_path_exists directory_path;
     if negb ex then
       print stderr (ErrorDoesNotExist directory_path);;
       ret 1%Z
     else
       isdir <- os_path_isdir directory_path;
       if negb isdir then
         print stderr (ErrorNotADirectory directory_path);;
         ret 1%Z
       else
         print stdout (ProcessingDirectory directory_path);;
         print stdout (Mode (dry_run args));;
         print stdout (Delimiter delimiter);;
         print stdout (Recursive (recursive args));;
         counts <- cleanup_directory directory_path delimiter
                     (dry_run args) (verbose args) (recursive args);
         print stdout Summary;;
         print stdout (FilesChecked counts.1);;
         print stdout (EmptyFiles (dry_run args) counts.2);;
         ret 0%Z)
    Exception
    (λ e,
       print stderr (ErrorTop e);;
       ret 1%Z).

End Script.

(** ** Worlds and inputs for the examples *)

Definition CHUNK_SIZE : positive := 8192.

Definition file (content : list byte) : inode := mkInode (Regular content) true true.

Definition dir : inode := mkInode Directory true true.

Definition start (fs : gmap path inode) : world := mkWorld fs [] 0 0 [].

Definition nl : string := String (ascii_of_nat 10) EmptyString.

(** A directory [data] with a header-only file, a file with one data row, a
    file that is not UTF-8, a file whose only data row has empty fields, a
    file of zero bytes, a header-only file that may not be removed, a
    directory whose name ends in [.csv], and a header-only file in a
    subdirectory. *)
Definition example_fs : gmap path inode :=
  {[ ["data"] := dir;
     ["data"; "a.csv"] := file (bytes_of ("name,age" +:+ nl));
     ["data"; "b.csv"] := file (bytes_of ("name,age" +:+ nl +:+ "bob,30" +:+ nl));
     ["data"; "c.csv"] := file [xff; xfe];
     ["data"; "e.csv"] := file (bytes_of ("name,age" +:+ nl +:+ "," +:+ nl));
     ["data"; "z.csv"] := file [];
     ["data"; "locked.csv"] := mkInode (Regular (bytes_of "id")) true false;
     ["data"; "x.csv"] := dir;
     ["data"; "sub"] := dir;
     ["data"; "sub"; "d.csv"] := file (bytes_of "name,age") ]}.

(** A file with two complete lines, then a sequence that the end of the
    file cuts short. *)
Definition cut_short_fs : gmap path inode :=
  {[ ["t.csv"] := file (bytes_of ("a" +:+ nl +:+ "b" +:+ nl) ++ [xe2; x82]) ]}.

(** A file with a header and a data row, then an undecodable byte. *)
Definition late_fault_fs : gmap path inode :=
  {[ ["f.csv"] := file (bytes_of ("h" +:+ nl +:+ "r" +:+ nl) ++ [xff]) ]}.

(** The directories of the scenarios of the specification. *)
Definition scenario_fs (name : string) (content : list byte) : gmap path inode :=
  {[ ["data"] := dir; ["data"; name] := file content ]}.

Definition nested_fs : gmap path inode :=
  {[ ["data"] := dir;
     ["data"; "sub"] := dir;
     ["data"; "sub"; "d.csv"] := file (bytes_of "h");
     ["data"; "e.csv"] := file (bytes_of "h") ]}.

Definition scenario_args (dry_run recursive : bool) : arguments :=
  mkArgs (str_of "data") dry_run false recursive [COMMA].

Definition run_main (args : arguments) (fs : gmap path inode) : outcome Z * world :=
  main CHUNK_SIZE (λ s, s) (λ _, ["data"]) args (start fs).

(** The same directory without the entries on which a run fails. *)
Definition tidy_fs : gmap path inode :=
  {[ ["data"] := dir;
     ["data"; "a.csv"] := file (bytes_of ("name,age" +:+ nl));
     ["data"; "b.csv"] := file (bytes_of ("name,age" +:+ nl +:+ "bob,30" +:+ nl));
     ["data"; "c.csv"] := file [xff; xfe];
     ["data"; "sub"] := dir;
     ["data"; "sub"; "d.csv"] := file (bytes_of "name,age") ]}.

(** ** Notions used in the statements *)

(** Both counters never decrease from one entry of the log to the next. *)
Definition counters_grow (log : list (nat * nat)) : Prop :=
  ∀ i a b, log !! i = Some a → log !! S i = Some b →
           (a.1 ≤ b.1)%nat ∧ (a.2 ≤ b.2)%nat.

(** What the run that ends in [w'] has printed since [w]. *)
Definition printed_since (w w' : world) : list (stream * message) :=
  drop (length (w_out w)) (w_out w').

(** A character that is not a line terminator. *)
Definition line_char (c : N) : Prop := c ≠ LF ∧ c ≠ CR.

(** The counters as the log has them: never more deletions than checks,
    never decreasing, and the last entry is their present value. *)
Definition log_ok (w : world) : Prop :=
  (∃ l, counter_log w = l ++ [(files_checked w, files_deleted w)])
  ∧ Forall (λ cd, (cd.2 ≤ cd.1)%nat) (counter_log w)
  ∧ counters_grow (counter_log w).

(** The state in which the loop of [cleanup_directory] starts: counters at
    zero, and the number of candidates announced in verbose mode. *)
Definition before_loop (directory_path : path) (verbose recursive : bool)
    (w : world) : world :=
  (when verbose
     (print stdout
        (FoundCsvFiles (length (glob_list (w_fs w) directory_path recursive))
                       directory_path recursive))
     (init_counters w).2).2.

(** The exception that classification raises when the delimiter is not a
    string of one character: the [OSError] of [open] when the entry cannot
    be opened, else the [TypeError] of the reader's constructor. *)
Definition reader_error (fs : gmap path inode) (p : path) : exn :=
  match fs !! p with
  | None => OSError ENOENT p
  | Some (mkInode Directory _ _) => OSError EISDIR p
  | Some (mkInode (Regular _) false _) => OSError EACCES p
  | Some (mkInode (Regular _) true _) => TypeError
  end.

(** The four lines [main] prints before the walk, and the three after. *)
Definition banner (directory_path : path) (args : arguments) (delimiter : str)
  : list (stream * message) :=
  [(stdout, ProcessingDirectory directory_path);
   (stdout, Mode (dry_run args));
   (stdout, Delimiter delimiter);
   (stdout, Recursive (recursive args))].

Definition summary (dry_run : bool) (counts : nat * nat)
  : list (stream * message) :=
  [(stdout, Summary);
   (stdout, FilesChecked counts.1);
   (stdout, EmptyFiles dry_run counts.2)].

(** One file system comes from another by removal of regular files. *)
Definition shrunk (fs fs' : gmap path inode) : Prop :=
  ∀ q, fs' !! q = fs !! q
       ∨ (fs' !! q = None ∧ ∃ c r, fs !! q = Some (mkInode (Regular c) r true)).

(** No candidate met the per-file error handler. *)
Definition no_file_failed (lines : list (stream * message)) : Prop :=
  ∀ p e, (stderr, ErrorProcessing p e) ∉ lines.

(** A file whose header is a single field of more characters than the
    reader accepts. *)
Definition long_header : list byte := replicate (N.to_nat 131073) "x"%byte.

Definition long_header_fs : gmap path inode :=
  {[ ["wide.csv"] := file long_header ]}.

(** ** Notions used in the further properties *)

(** The lines by which the walker tells what became of a candidate. *)
Definition per_file_line (l : stream * message) : bool :=
  match l with
  | (stdout, Deleted _) | (stdout, WouldDelete _) | (stdout, Keeping _)
  | (stderr, ErrorProcessing _ _) => true
  | _ => false
  end.

(** The candidate that such a line is about. *)
Definition per_file_path (l : stream * message) : option path :=
  match l with
  | (stdout, Deleted p) | (stdout, WouldDelete p) | (stdout, Keeping p)
  | (stderr, ErrorProcessing p _) => Some p
  | _ => None
  end.

Definition deleted_line (l : stream * message) : bool :=
  match l with
  | (stdout, Deleted _) => true
  | _ => false
  end.

Definition on_stdout (l : stream * message) : bool :=
  match l.1 with
  | stdout => true
  | stderr => false
  end.

(** An entry that a run not in dry-run mode removes when it comes to it: a
    regular file that may be unlinked. *)
Definition unlinkable_file (i : option inode) : Prop :=
  ∃ c r, i = Some (mkInode (Regular c) r true).

(** A character with no special meaning to the reader. *)
Definition plain_char (d c : N) : Prop :=
  c ≠ LF ∧ c ≠ CR ∧ c ≠ DQUOTE ∧ c ≠ d.

(** The line terminators, and no terminator at all. *)
Definition line_end (t : str) : Prop :=
  t = [] ∨ t = [LF] ∨ t = [CR] ∨ t = [CR; LF].

(** The number of lines of a kind. *)
Definition count_lines (kind : stream * message → bool)
    (lines : list (stream * message)) : nat :=
  length (List.filter kind lines).

(** * Properties *)

(** ** The runtime model on small inputs *)

Example utf8_ascii : Utf8.decode (bytes_of "a,b") = ([97; 44; 98], Utf8.Clean).
Proof. reflexivity. Qed.

Example utf8_e_acute : Utf8.decode [xc3; xa9] = ([0xE9], Utf8.Clean).
Proof. reflexivity. Qed.

Example utf8_euro_cut : Utf8.decode [x41; xe2; x82] = ([65], Utf8.Truncated).
Proof. reflexivity. Qed.

Example utf8_bad_start : Utf8.decode [x68; x0a; xff; x41] = ([104; 10], Utf8.Invalid 2).
Proof. reflexivity. Qed.

Example utf8_surrogate : Utf8.decode [xed; xa0; x80] = ([], Utf8.Invalid 1).
Proof. reflexivity. Qed.

Example lines_mixed_terminators :
  TextIO.all_lines (str_of "a" ++ [CR; LF] ++ str_of "b" ++ [CR] ++ str_of "c" ++ [LF] ++ str_of "d")
  = [str_of "a" ++ [CR; LF]; str_of "b" ++ [CR]; str_of "c" ++ [LF]; str_of "d"].
Proof. reflexivity. Qed.

(** A fault in the first block is met by the first read; one in a later
    block only after the complete lines of the blocks before it. *)
Example fault_in_first_block :
  TextIO.readlines CHUNK_SIZE (bytes_of ("h" +:+ nl) ++ [xff]) = [DecodeFault].
Proof. reflexivity. Qed.

Example fault_in_second_block :
  TextIO.readlines 4 (bytes_of ("h" +:+ nl +:+ "row" +:+ nl) ++ [xff])
  = [Line (str_of ("h" +:+ nl)); DecodeFault].
Proof. reflexivity. Qed.

Example csv_quoted_fields :
  Csv.records COMMA
    (Line <$> TextIO.all_lines
       (str_of "a," ++ [DQUOTE] ++ str_of "x,y" ++ [LF] ++ str_of "z"
        ++ [DQUOTE; DQUOTE; DQUOTE; LF] ++ str_of "1,2" ++ [LF]))
  = ([[str_of "a"; str_of "x,y" ++ [LF] ++ str_of "z" ++ [DQUOTE]];
      [str_of "1"; str_of "2"]], None).
Proof. reflexivity. Qed.

Example csv_blank_line_is_a_record :
  Csv.records COMMA (Line <$> TextIO.all_lines (str_of ("h" +:+ nl +:+ nl)))
  = ([[str_of "h"]; []], None).
Proof. reflexivity. Qed.

(** ** The CSV reader *)

Section Reader.

Context (d : N).

Lemma parse_add_char_raises p c e :
  Csv.parse_add_char p c = Raise e → UnicodeDecodeError_or_csv_Error e = true.
Proof.
  unfold Csv.parse_add_char. case_match; [|done]. by intros [= <-].
Qed.

Lemma parse_process_char_raises p c e :
  Csv.parse_process_char d p c = Raise e →
  UnicodeDecodeError_or_csv_Error e = true.
Proof.
  unfold Csv.parse_process_char, Csv.start_field.
  repeat case_match; try done;
    try (by intros [= <-]);
    try (intros [= <-]); eauto using parse_add_char_raises.
Qed.

Lemma process_chars_raises l : ∀ p e,
  Csv.process_chars d p l = Raise e →
  UnicodeDecodeError_or_csv_Error e = true.
Proof.
  induction l as [|c l IH]; intros p e; simpl.
  - apply parse_process_char_raises.
  - destruct (Csv.parse_process_char d p (Csv.Ch c)) as [p'|e'] eqn:Hc.
    + apply IH.
    + intros [= <-]. by eapply parse_process_char_raises.
Qed.

(** One [next] gives the first record of the rest of the file, and
    leaves the input at the record after it. *)
Lemma iternext_loop_records input : ∀ p,
  match Csv.iternext_loop d p input with
  | (Csv.Row r, rest) =>
      Csv.records_from d p input
      = (r :: (Csv.records d rest).1, (Csv.records d rest).2)
  | (Csv.StopIteration, rest) =>
      rest = [] ∧ Csv.records_from d p input = ([], None)
  | (Csv.Raised e, _) =>
      Csv.records_from d p input = ([], Some e)
      ∧ UnicodeDecodeError_or_csv_Error e = true
  end.
Proof.
  induction input as [|ev input IH]; intros p; simpl.
  - by destruct (negb _ || _).
  - destruct ev as [l|]; [|done].
    destruct (Csv.process_chars d p l) as [p'|e] eqn:Hl.
    + specialize (IH p').
      destruct (Csv.state p'); try done.
      unfold Csv.records. by destruct (Csv.records_from d Csv.parse_reset input).
    + split; [done|]. by eapply process_chars_raises.
Qed.

Lemma Reader_iternext_records input :
  match Csv.Reader_iternext (Csv.mkReader d input) with
  | (Csv.Row r, r') =>
      Csv.dialect_delimiter r' = d ∧
      Csv.records d input
      = (r :: (Csv.records d (Csv.input_iter r')).1,
         (Csv.records d (Csv.input_iter r')).2)
  | (Csv.StopIteration, r') =>
      r' = Csv.mkReader d [] ∧ Csv.records d input = ([], None)
  | (Csv.Raised e, _) =>
      Csv.records d input = ([], Some e)
      ∧ UnicodeDecodeError_or_csv_Error e = true
  end.
Proof.
  unfold Csv.Reader_iternext; simpl.
  pose proof (iternext_loop_records input Csv.parse_reset) as H.
  destruct (Csv.iternext_loop d Csv.parse_reset input) as [[r| |e] rest]; simpl.
  - done.
  - destruct H as [-> H]. done.
  - done.
Qed.

(** A file that cannot be decoded to its end is never read to its end
    without an exception. *)
Lemma records_from_fault ls : ∀ p,
  (Csv.records_from d p ((Line <$> ls) ++ [DecodeFault])).2 ≠ None.
Proof.
  induction ls as [|l ls IH]; intros p; simpl; [done|].
  destruct (Csv.process_chars d p l) as [p'|e]; [|done].
  destruct (Csv.state p'); try apply IH.
  specialize (IH Csv.parse_reset).
  by destruct (Csv.records_from d Csv.parse_reset _).
Qed.

End Reader.

(** ** The classifier *)

Section Classifier.

Context (chunk_size : positive).

(** On a file that can be opened, with a delimiter of one character, the
    verdict is decided by the records of the file: two records or more,
    or else how the reading ended. *)
Lemma is_empty_csv_readable w file_path content u d :
  w_fs w !! file_path = Some (mkInode (Regular content) true u) →
  is_empty_csv chunk_size file_path [d] w =
    match Csv.records d (TextIO.readlines chunk_size content) with
    | (_ :: _ :: _, _) => (Return false, w)
    | (_, None) => (Return true, w)
    | (_, Some e) =>
        (Return false, emit w [(stderr, WarningCouldNotProcess file_path e)])
    end.
Proof.
  intros Hfs.
  unfold is_empty_csv, read_header_and_row, try_except, bind, open_text, open_inode.
  rewrite Hfs; simpl.
  unfold next_or_None.
  pose proof (Reader_iternext_records d (TextIO.readlines chunk_size content)) as H1.
  destruct (Csv.Reader_iternext _) as [[r1| |e1] rd1]; simpl.
  - destruct H1 as [Hd H1]. rewrite H1.
    destruct rd1 as [d1 rest]; simpl in *; subst d1.
    pose proof (Reader_iternext_records d rest) as H2.
    destruct (Csv.Reader_iternext _) as [[r2| |e2] rd2]; simpl.
    + destruct H2 as [_ ->]. done.
    + destruct H2 as [_ ->]. done.
    + destruct H2 as [-> ->]. done.
  - destruct H1 as [-> ->]. done.
  - destruct H1 as [-> ->]. done.
Qed.

(** The same for the body of the [try], where the exception is still
    on its way. *)
Lemma read_header_and_row_readable w file_path content u d :
  w_fs w !! file_path = Some (mkInode (Regular content) true u) →
  read_header_and_row chunk_size file_path [d] w =
    match Csv.records d (TextIO.readlines chunk_size content) with
    | (_ :: _ :: _, _) => (Return false, w)
    | (_, None) => (Return true, w)
    | (_, Some e) => (Raise e, w)
    end.
Proof.
  intros Hfs.
  unfold read_header_and_row, bind, open_text, open_inode.
  rewrite Hfs; simpl.
  unfold next_or_None.
  pose proof (Reader_iternext_records d (TextIO.readlines chunk_size content)) as H1.
  destruct (Csv.Reader_iternext _) as [[r1| |e1] rd1]; simpl.
  - destruct H1 as [Hd H1]. rewrite H1.
    destruct rd1 as [d1 rest]; simpl in *; subst d1.
    pose proof (Reader_iternext_records d rest) as H2.
    destruct (Csv.Reader_iternext _) as [[r2| |e2] rd2]; simpl.
    + destruct H2 as [_ ->]. done.
    + destruct H2 as [_ ->]. done.
    + destruct H2 as [-> _]. done.
  - destruct H1 as [-> ->]. done.
  - destruct H1 as [-> _]. done.
Qed.

(** The body of the [try] changes nothing. *)
Lemma read_header_and_row_frame w file_path delimiter :
  (read_header_and_row chunk_size file_path delimiter w).2 = w.
Proof.
  unfold read_header_and_row, bind, open_text, raise, ret, next_or_None.
  destruct (open_inode _ _ _) as [csvfile|e]; simpl; [|done].
  destruct (Csv.new_reader csvfile delimiter) as [rd|e]; simpl; [|done].
  destruct (Csv.Reader_iternext rd) as [[r1| |e1] rd1]; simpl; [| |done].
  - by destruct (Csv.Reader_iternext rd1) as [[r2| |e2] rd2].
  - by destruct (Csv.Reader_iternext rd1) as [[r2| |e2] rd2].
Qed.

Lemma emit_nil w : emit w [] = w.
Proof. destruct w; unfold emit; simpl. by rewrite app_nil_r. Qed.

(** Whatever the delimiter and the path: the classifier leaves the file
    system, the counters and their log alone, and prints nothing, or one
    warning when it returns false. *)
Lemma is_empty_csv_frame w file_path delimiter :
  ∃ lines,
    (is_empty_csv chunk_size file_path delimiter w).2 = emit w lines
    ∧ (lines = []
       ∨ (is_empty_csv chunk_size file_path delimiter w).1 = Return false
         ∧ ∃ e, lines = [(stderr, WarningCouldNotProcess file_path e)]).
Proof.
  unfold is_empty_csv, read_header_and_row, try_except, bind, open_text, raise, ret, next_or_None, print.
  destruct (open_inode _ _ _) as [csvfile|e]; simpl.
  2:{ destruct (UnicodeDecodeError_or_csv_Error e); simpl; eauto 6 using emit_nil. }
  destruct (Csv.new_reader csvfile delimiter) as [rd|e]; simpl.
  2:{ destruct (UnicodeDecodeError_or_csv_Error e); simpl; eauto 6 using emit_nil. }
  destruct (Csv.Reader_iternext rd) as [[r1| |e1] rd1]; simpl.
  - destruct (Csv.Reader_iternext rd1) as [[r2| |e2] rd2]; simpl;
      eauto 6 using emit_nil.
    destruct (UnicodeDecodeError_or_csv_Error e2); simpl; eauto 6 using emit_nil.
  - destruct (Csv.Reader_iternext rd1) as [[r2| |e2] rd2]; simpl;
      eauto 6 using emit_nil.
    destruct (UnicodeDecodeError_or_csv_Error e2); simpl; eauto 6 using emit_nil.
  - destruct (UnicodeDecodeError_or_csv_Error e1); simpl; eauto 6 using emit_nil.
Qed.

(** The verdict on a path depends on the entry at that path only. *)
Lemma is_empty_csv_local w1 w2 file_path delimiter :
  w_fs w1 !! file_path = w_fs w2 !! file_path →
  (is_empty_csv chunk_size file_path delimiter w1).1
  = (is_empty_csv chunk_size file_path delimiter w2).1.
Proof.
  intros Hfs.
  unfold is_empty_csv, read_header_and_row, try_except, bind, open_text, raise, ret.
  rewrite Hfs.
  destruct (open_inode _ _ _) as [csvfile|e]; simpl.
  2:{ by destruct (UnicodeDecodeError_or_csv_Error e). }
  destruct (Csv.new_reader csvfile delimiter) as [rd|e]; simpl.
  2:{ by destruct (UnicodeDecodeError_or_csv_Error e). }
  unfold next_or_None, raise, ret.
  destruct (Csv.Reader_iternext rd) as [[r1| |e1] rd1]; simpl.
  - destruct (Csv.Reader_iternext rd1) as [[r2| |e2] rd2]; simpl; try done.
    by destruct (UnicodeDecodeError_or_csv_Error e2).
  - destruct (Csv.Reader_iternext rd1) as [[r2| |e2] rd2]; simpl; try done.
    by destruct (UnicodeDecodeError_or_csv_Error e2).
  - by destruct (UnicodeDecodeError_or_csv_Error e1).
Qed.

End Classifier.

(** ** A file of one line *)

Section OneLine.

Context (d : N).

Lemma split_lines_one_line h :
  Forall line_char h → TextIO.split_lines (h ++ [LF]) = ([h ++ [LF]], []).
Proof.
  induction 1 as [|c h [Hlf Hcr] _ IH]; [done|].
  simpl. rewrite IH.
  apply N.eqb_neq in Hlf, Hcr. by rewrite Hlf, Hcr.
Qed.

Lemma parse_add_char_below p c :
  Csv.field_len p < Csv.field_limit →
  Csv.parse_add_char p c
  = Return (Csv.mkParser (Csv.state p) (Csv.fields p) (Csv.field p ++ [c])
                         (Csv.field_len p + 1)).
Proof.
  intros Hlen. unfold Csv.parse_add_char.
  destruct (N.leb_spec Csv.field_limit (Csv.field_len p)); [lia|done].
Qed.

(** Inside a line the automaton does not raise while the field is below
    the limit, and does not reach the state that follows a terminator. *)
Lemma parse_process_char_in_line p c :
  line_char c → Csv.state p ≠ Csv.EAT_CRNL →
  Csv.field_len p < Csv.field_limit →
  ∃ p', Csv.parse_process_char d p (Csv.Ch c) = Return p'
        ∧ Csv.state p' ≠ Csv.EAT_CRNL
        ∧ Csv.field_len p' ≤ Csv.field_len p + 1.
Proof.
  intros [Hlf%N.eqb_neq Hcr%N.eqb_neq] Hst Hlen.
  unfold Csv.parse_process_char, Csv.start_field, Csv.is_newline.
  rewrite Hlf, Hcr; simpl.
  destruct (Csv.state p) eqn:Hp; try done;
    repeat case_match; simplify_eq;
    rewrite ?parse_add_char_below in * by (simpl; lia); simplify_eq;
    eexists; (split; [done|]); simpl; rewrite ?Hp; (split; [done|lia]).
Qed.

Lemma process_chars_one_line h : ∀ p,
  Forall line_char h → Csv.state p ≠ Csv.EAT_CRNL →
  Csv.field_len p + N.of_nat (length h) < Csv.field_limit →
  ∃ p', Csv.process_chars d p (h ++ [LF]) = Return p'
        ∧ (Csv.state p' = Csv.START_RECORD ∨ Csv.state p' = Csv.IN_QUOTED_FIELD).
Proof.
  induction h as [|c h IH]; intros p Hh Hst Hlen; simpl in *.
  - assert (∃ p1, Csv.parse_process_char d p (Csv.Ch LF) = Return p1
                  ∧ (Csv.state p1 = Csv.EAT_CRNL
                     ∨ Csv.state p1 = Csv.IN_QUOTED_FIELD
                     ∨ Csv.state p1 = Csv.START_FIELD)) as (p1 & -> & Hp1).
    { unfold Csv.parse_process_char, Csv.start_field, Csv.is_newline; simpl.
      destruct (Csv.state p) eqn:Hp; try done; simpl;
        rewrite ?parse_add_char_below by lia;
        try case_match;
        eexists; (split; [done|]); simpl; rewrite ?Hp; auto. }
    unfold Csv.parse_process_char, Csv.start_field.
    destruct Hp1 as [Hp1 | [Hp1 | Hp1]]; rewrite Hp1;
      eexists; (split; [done|]); simpl; auto.
  - apply Forall_cons in Hh as [Hc Hh].
    destruct (parse_process_char_in_line p c) as (p1 & -> & Hst1 & Hlen1);
      [done|done|lia|].
    apply IH; [done|done|lia].
Qed.

(** A single line that ends in a line feed is one record. *)
Lemma records_one_line h :
  Forall line_char h → N.of_nat (length h) < Csv.field_limit →
  ∃ r, Csv.records d (Line <$> TextIO.all_lines (h ++ [LF])) = ([r], None).
Proof.
  intros Hh Hlen.
  unfold TextIO.all_lines. rewrite split_lines_one_line by done. simpl.
  unfold Csv.records; simpl.
  destruct (process_chars_one_line h Csv.parse_reset) as (p' & -> & Hst);
    [done|done|simpl; lia|].
  destruct Hst as [-> | Hq].
  - by eexists.
  - rewrite Hq. rewrite orb_true_r. by eexists.
Qed.

End OneLine.

(** ** Claims about the classifier *)

(** C1.  On a file that can be opened, with a delimiter of one character,
    [is_empty_csv] returns true exactly when the reader, run over the whole
    file, comes to the end of the file with at most one record (the header).
    It returns false, without touching anything, as soon as there is a
    second record, whatever that record holds.  The file of zero bytes is
    empty, and so is every file that is a single line ended by a line
    feed. *)
Theorem C1_is_empty_csv_iff_no_second_record
    (chunk_size : positive) (w : world) (file_path : path)
    (content : list byte) (u : bool) (d : N) :
  w_fs w !! file_path = Some (mkInode (Regular content) true u) →
  let parsed := Csv.records d (TextIO.readlines chunk_size content) in
  (is_empty_csv chunk_size file_path [d] w = (Return true, w)
     ↔ parsed.2 = None ∧ (length parsed.1 ≤ 1)%nat)
  ∧ ((is_empty_csv chunk_size file_path [d] w).1 = Return true
     ↔ parsed.2 = None ∧ (length parsed.1 ≤ 1)%nat)
  ∧ (∀ row, parsed.1 !! 1%nat = Some row →
       is_empty_csv chunk_size file_path [d] w = (Return false, w))
  ∧ (content = [] →
       is_empty_csv chunk_size file_path [d] w = (Return true, w))
  ∧ (∀ h, Utf8.decode content = (h ++ [LF], Utf8.Clean) →
          Forall line_char h → N.of_nat (length h) < Csv.field_limit →
          is_empty_csv chunk_size file_path [d] w = (Return true, w)).
Proof.
  intros Hfs parsed.
  pose proof (is_empty_csv_readable chunk_size w file_path content u d Hfs) as Heq.
  fold parsed in Heq.
  assert (∀ h, Utf8.decode content = (h ++ [LF], Utf8.Clean) →
               Forall line_char h → N.of_nat (length h) < Csv.field_limit →
               ∃ r, parsed = ([r], None)) as Hone.
  { intros h Hdec Hh Hlen. subst parsed.
    unfold TextIO.readlines. rewrite Hdec. by apply records_one_line. }
  assert (content = [] → parsed = ([], None)) as Hzero.
  { intros ->. done. }
  rewrite Heq.
  destruct parsed as [[|r1 [|r2 rs]] [e|]]; simpl;
    (split; [|split; [|split; [|split]]]);
    try (split;
         [ intros ?; first [ by simplify_eq | split; [done | simpl; lia] ]
         | intros [? Hle]; first [ done | simpl in Hle; lia ] ]);
    try done;
    try (by intros Hc; specialize (Hzero Hc));
    try (by intros h H1 H2 H3; destruct (Hone h H1 H2 H3)).
Qed.

Lemma C1_witness :
  is_empty_csv CHUNK_SIZE ["data"; "a.csv"] [COMMA] (start example_fs)
  = (Return true, start example_fs)
  ∧ is_empty_csv CHUNK_SIZE ["data"; "e.csv"] [COMMA] (start example_fs)
    = (Return false, start example_fs)
  ∧ is_empty_csv CHUNK_SIZE ["data"; "z.csv"] [COMMA] (start example_fs)
    = (Return true, start example_fs).
Proof.
  split; [|split].
  - destruct (C1_is_empty_csv_iff_no_second_record CHUNK_SIZE (start example_fs)
                ["data"; "a.csv"] (bytes_of ("name,age" +:+ nl)) true COMMA eq_refl)
      as (Hiff & _).
    apply Hiff. vm_compute. split; [reflexivity | lia].
  - destruct (C1_is_empty_csv_iff_no_second_record CHUNK_SIZE (start example_fs)
                ["data"; "e.csv"] (bytes_of ("name,age" +:+ nl +:+ "," +:+ nl))
                true COMMA eq_refl)
      as (_ & _ & Hrow & _).
    apply (Hrow [[]; []]). reflexivity.
  - destruct (C1_is_empty_csv_iff_no_second_record CHUNK_SIZE (start example_fs)
                ["data"; "z.csv"] [] true COMMA eq_refl)
      as (_ & _ & _ & Hzero & _).
    apply Hzero. reflexivity.
Defined.

Lemma records_from_raises d input : ∀ p e,
  (Csv.records_from d p input).2 = Some e →
  UnicodeDecodeError_or_csv_Error e = true.
Proof.
  induction input as [|ev input IH]; intros p e; simpl.
  - by destruct (negb _ || _).
  - destruct ev as [l|]; [|by intros [= <-]].
    destruct (Csv.process_chars d p l) as [p'|e'] eqn:Hl.
    + destruct (Csv.state p'); try apply IH.
      specialize (IH Csv.parse_reset e).
      by destruct (Csv.records_from d Csv.parse_reset input).
    + intros [= <-]. by eapply process_chars_raises.
Qed.

Lemma readlines_fault chunk_size content :
  (Utf8.decode content).2 ≠ Utf8.Clean →
  ∃ ls, TextIO.readlines chunk_size content = (Line <$> ls) ++ [DecodeFault].
Proof.
  unfold TextIO.readlines.
  destruct (Utf8.decode content) as [text [| |n]]; simpl; [done| |]; eauto.
Qed.

Lemma readlines_fault_in_first_block chunk_size content n :
  (Utf8.decode content).2 = Utf8.Invalid n →
  N.of_nat n < Npos chunk_size →
  TextIO.readlines chunk_size content = [DecodeFault].
Proof.
  unfold TextIO.readlines, TextIO.fetched_before.
  destruct (Utf8.decode content) as [text e]; simpl. intros -> Hn.
  by rewrite N.div_small.
Qed.

(** A verdict other than true never leads to a removal. *)
Lemma loop_body_keeps chunk_size delimiter dry_run verbose file_path w :
  (is_empty_csv chunk_size file_path delimiter (incr_files_checked w).2).1
    = Return false →
  w_fs (loop_body chunk_size delimiter dry_run verbose file_path w).2 = w_fs w.
Proof.
  intros Hv.
  unfold loop_body, process_file, bind, try_except.
  destruct (is_empty_csv_frame chunk_size (incr_files_checked w).2
              file_path delimiter) as (lines & Hw & _).
  destruct (incr_files_checked w) as [[[]|?] w0] eqn:Hincr; [|done].
  simpl in *.
  destruct (is_empty_csv chunk_size file_path delimiter w0) as [r w1].
  simpl in *. subst r w1.
  assert (w_fs w0 = w_fs w) as <- by (by injection Hincr as <-).
  by destruct verbose.
Qed.

(** The statement of C2 as the specification has it, for every file that
    is not UTF-8, does not hold: the file is read lazily, and here the two
    records are read before the sequence that the end of the file cuts
    short is met.  The file is classified not empty, and no warning is
    written. *)
Lemma C2_counterexample :
  let content := bytes_of ("a" +:+ nl +:+ "b" +:+ nl) ++ [xe2; x82] in
  w_fs (start cut_short_fs) !! ["t.csv"] = Some (file content)
  ∧ (Utf8.decode content).2 = Utf8.Truncated
  ∧ is_empty_csv CHUNK_SIZE ["t.csv"] [COMMA] (start cut_short_fs)
    = (Return false, start cut_short_fs)
  ∧ ¬ (∃ e, is_empty_csv CHUNK_SIZE ["t.csv"] [COMMA] (start cut_short_fs)
            = (Return false,
               emit (start cut_short_fs)
                 [(stderr, WarningCouldNotProcess ["t.csv"] e)])).
Proof.
  split_and!; try reflexivity.
  intros [e He].
  assert (w_out (is_empty_csv CHUNK_SIZE ["t.csv"] [COMMA] (start cut_short_fs)).2
          = []) as Hout by reflexivity.
  rewrite He in Hout. discriminate Hout.
Qed.

(** C2, amended.  Whenever the reading in [is_empty_csv] (of the header
    and of the first data record) raises a [UnicodeDecodeError] or a
    [csv.Error], the function returns false and writes one warning with the
    path and the exception to the error stream; no exception of these two
    classes ever leaves it.  On a file that can be opened, with a delimiter
    of one character: an exception that stops the reader before a second
    record is such an exception; bytes that are not UTF-8 are never
    classified empty, and the warning is certain when the offending byte
    lies in the first block; the classifier always returns; and the walker
    removes nothing when the verdict is false. *)
Theorem C2_undecodable_or_unparsable_is_kept
    (chunk_size : positive) (w : world) (file_path : path) (delimiter : str) :
  (∀ e w1,
     read_header_and_row chunk_size file_path delimiter w = (Raise e, w1) →
     UnicodeDecodeError_or_csv_Error e = true →
     is_empty_csv chunk_size file_path delimiter w
     = (Return false, emit w [(stderr, WarningCouldNotProcess file_path e)]))
  ∧ (∀ e, UnicodeDecodeError_or_csv_Error e = true →
          (is_empty_csv chunk_size file_path delimiter w).1 ≠ Raise e)
  ∧ (∀ content u d,
       delimiter = [d] →
       w_fs w !! file_path = Some (mkInode (Regular content) true u) →
       let parsed := Csv.records d (TextIO.readlines chunk_size content) in
       (∀ e, parsed.2 = Some e → (length parsed.1 ≤ 1)%nat →
             UnicodeDecodeError_or_csv_Error e = true
             ∧ read_header_and_row chunk_size file_path delimiter w = (Raise e, w)
             ∧ is_empty_csv chunk_size file_path delimiter w
               = (Return false,
                  emit w [(stderr, WarningCouldNotProcess file_path e)]))
       ∧ ((Utf8.decode content).2 ≠ Utf8.Clean →
          (is_empty_csv chunk_size file_path delimiter w).1 = Return false)
       ∧ (∀ n, (Utf8.decode content).2 = Utf8.Invalid n →
               N.of_nat n < Npos chunk_size →
               is_empty_csv chunk_size file_path delimiter w
               = (Return false,
                  emit w [(stderr,
                           WarningCouldNotProcess file_path UnicodeDecodeError)]))
       ∧ (∃ b, (is_empty_csv chunk_size file_path delimiter w).1 = Return b)
       ∧ (∀ dry_run verbose,
            (is_empty_csv chunk_size file_path delimiter w).1 = Return false →
            w_fs (loop_body chunk_size delimiter dry_run verbose file_path w).2
            = w_fs w)).
Proof.
  split; [|split].
  - intros e w1 Hraise Hclass.
    pose proof (read_header_and_row_frame chunk_size w file_path delimiter) as Hw.
    rewrite Hraise in Hw. simpl in Hw. subst w1.
    unfold is_empty_csv, try_except. by rewrite Hraise, Hclass.
  - intros e Hclass. unfold is_empty_csv, try_except.
    destruct (read_header_and_row chunk_size file_path delimiter w) as [[b|e'] w1];
      [done|].
    destruct (UnicodeDecodeError_or_csv_Error e') eqn:He'; [done|].
    simpl. intros [= ->]. by rewrite Hclass in He'.
  - intros content u d -> Hfs parsed.
    pose proof (is_empty_csv_readable chunk_size w file_path content u d Hfs) as Heq.
    pose proof (read_header_and_row_readable chunk_size w file_path content u d Hfs)
      as Hbody.
    fold parsed in Heq, Hbody.
    split; [|split; [|split; [|split]]].
    + intros e He Hlen.
      split; [by eapply records_from_raises|].
      rewrite Heq, Hbody.
      destruct parsed as [[|r1 [|r2 rs]] oe]; simpl in *; subst oe;
        first [done | lia].
    + intros Hbad. rewrite Heq.
      destruct (readlines_fault chunk_size content Hbad) as [ls Hls].
      pose proof (records_from_fault d ls Csv.parse_reset) as Hf.
      rewrite <- Hls in Hf.
      fold (Csv.records d (TextIO.readlines chunk_size content)) in Hf.
      fold parsed in Hf.
      by destruct parsed as [[|r1 [|r2 rs]] [e|]].
    + intros n Hn Hlt. rewrite Heq. subst parsed.
      by rewrite (readlines_fault_in_first_block chunk_size content n).
    + rewrite Heq. destruct parsed as [[|r1 [|r2 rs]] [e|]]; simpl; eauto.
    + intros dry_run verbose Hv. apply loop_body_keeps.
      erewrite is_empty_csv_local; [exact Hv|done].
Qed.

Lemma C2_witness :
  is_empty_csv CHUNK_SIZE ["data"; "c.csv"] [COMMA] (start example_fs)
  = (Return false,
     emit (start example_fs)
       [(stderr, WarningCouldNotProcess ["data"; "c.csv"] UnicodeDecodeError)]).
Proof.
  destruct (C2_undecodable_or_unparsable_is_kept CHUNK_SIZE (start example_fs)
              ["data"; "c.csv"] [COMMA]) as (Hraise & _).
  apply (Hraise UnicodeDecodeError (start example_fs)); reflexivity.
Defined.

(** The reading is lazy: an undecodable byte in a block that the two reads
    never fetch goes unnoticed, and the file is classified not empty without
    a warning.  Here the blocks are of four bytes. *)
Example late_fault_goes_unnoticed :
  is_empty_csv 4 ["f.csv"] [COMMA] (start late_fault_fs)
  = (Return false, start late_fault_fs).
Proof. reflexivity. Qed.

Example late_fault_in_one_block :
  is_empty_csv CHUNK_SIZE ["f.csv"] [COMMA] (start late_fault_fs)
  = (Return false,
     emit (start late_fault_fs)
       [(stderr, WarningCouldNotProcess ["f.csv"] UnicodeDecodeError)]).
Proof. reflexivity. Qed.

(** ** The walker, one candidate at a time *)

Section Walker.

Context (chunk_size : positive) (delimiter : str) (dry_run verbose : bool).

Local Abbreviation body := (loop_body chunk_size delimiter dry_run verbose).
Local Abbreviation classify p w := (is_empty_csv chunk_size p delimiter w).1.

(** What one turn of the loop does.  It never raises; it counts the
    candidate; then either the candidate is removed and counted as
    deleted, or the file system and the deletion counter stay as they
    are and the lines printed tell why. *)
Lemma loop_body_spec file_path w :
  ∃ lines w',
    body file_path w = (Return tt, w')
    ∧ files_checked w' = S (files_checked w)
    ∧ w_out w' = w_out w ++ lines
    ∧ ((dry_run = false
        ∧ classify file_path w = Return true
        ∧ (∃ c r, w_fs w !! file_path = Some (mkInode (Regular c) r true))
        ∧ w_fs w' = delete file_path (w_fs w)
        ∧ files_deleted w' = S (files_deleted w)
        ∧ counter_log w'
          = counter_log w ++ [(S (files_checked w), files_deleted w);
                              (S (files_checked w), S (files_deleted w))]
        ∧ lines = if verbose then [(stdout, Deleted file_path)] else [])
       ∨ (w_fs w' = w_fs w
          ∧ files_deleted w' = files_deleted w
          ∧ counter_log w'
            = counter_log w ++ [(S (files_checked w), files_deleted w)]
          ∧ ((classify file_path w = Return true ∧ dry_run = true
              ∧ lines = [(stdout, WouldDelete file_path)])
             ∨ (classify file_path w = Return true ∧ dry_run = false
                ∧ ∃ e, (os_remove file_path w).1 = Raise e
                       ∧ lines = [(stderr, ErrorProcessing file_path e)])
             ∨ (classify file_path w = Return false
                ∧ ∃ warning, no_file_failed warning
                    ∧ lines = warning
                        ++ if verbose then [(stdout, Keeping file_path)] else [])
             ∨ (∃ e, classify file_path w = Raise e
                     ∧ lines = [(stderr, ErrorProcessing file_path e)])))).
Proof.
  unfold loop_body, process_file, bind, try_except, Exception.
  unfold incr_files_checked at 1.
  set (w0 := mkWorld _ _ _ _ _).
  assert (classify file_path w0 = classify file_path w) as Hv
    by (by apply is_empty_csv_local).
  destruct (is_empty_csv_frame chunk_size w0 file_path delimiter)
    as (lines0 & Hw1 & Hlines0).
  destruct (is_empty_csv chunk_size file_path delimiter w0) as [v w1].
  simpl in Hv, Hw1, Hlines0. subst w1.
  destruct v as [[|]|e].
  - (* classified empty *)
    destruct Hlines0 as [-> | [? _]]; [|done]. rewrite emit_nil.
    destruct dry_run.
    + eexists [_], _. split; [done|]. simpl. split; [done|]. split; [done|].
      right. rewrite <- Hv. eauto 10.
    + unfold os_remove at 1.
      replace (w_fs w0 !! file_path) with (w_fs w !! file_path) by done.
      assert ((os_remove file_path w).1
              = match w_fs w !! file_path with
                | None => Raise (OSError ENOENT file_path)
                | Some (mkInode Directory _ _) => Raise (OSError EISDIR file_path)
                | Some (mkInode (Regular _) _ false) =>
                    Raise (OSError EACCES file_path)
                | Some (mkInode (Regular _) _ true) => Return tt
                end) as Hrm.
      { unfold os_remove. by repeat case_match. }
      destruct (w_fs w !! file_path) as [[[|c] r [|]]|] eqn:Hfs; simpl.
      * eexists [_], _. split; [done|]. simpl.
        split; [done|]. split; [done|]. right. rewrite <- Hv. eauto 10.
      * eexists [_], _. split; [done|]. simpl.
        split; [done|]. split; [done|]. right. rewrite <- Hv. eauto 10.
      * unfold incr_files_deleted, when, print, ret, emit; simpl.
        destruct verbose; simpl.
        -- eexists [_], _. split; [done|]. simpl.
           split; [done|]. split; [done|]. left. rewrite <- Hv.
           rewrite <- app_assoc. eauto 12.
        -- exists []. eexists. split; [done|]. simpl. rewrite app_nil_r.
           split; [done|]. split; [done|]. left. rewrite <- Hv.
           rewrite <- app_assoc. eauto 12.
      * eexists [_], _. split; [done|]. simpl.
        split; [done|]. split; [done|]. right. rewrite <- Hv. eauto 10.
      * eexists [_], _. split; [done|]. simpl.
        split; [done|]. split; [done|]. right. rewrite <- Hv. eauto 10.
  - (* classified not empty *)
    assert (no_file_failed lines0) as Hnf.
    { intros p e. destruct Hlines0 as [-> | [_ [e' ->]]].
      - apply not_elem_of_nil.
      - rewrite list_elem_of_singleton. by intros [= ]. }
    unfold when, print, ret, emit; simpl.
    destruct verbose; simpl.
    + exists (lines0 ++ [(stdout, Keeping file_path)]). eexists.
      split; [done|]. simpl. rewrite <- app_assoc.
      split; [done|]. split; [done|]. right. rewrite <- Hv.
      split; [done|]. split; [done|]. split; [done|].
      right; right; left. split; [done|]. by exists lines0.
    + exists lines0. eexists.
      split; [done|]. simpl.
      split; [done|]. split; [done|]. right. rewrite <- Hv.
      split; [done|]. split; [done|]. split; [done|].
      right; right; left. split; [done|]. exists lines0.
      by rewrite app_nil_r.
  - (* the classifier raised *)
    destruct Hlines0 as [-> | [? _]]; [|done]. rewrite emit_nil.
    eexists [_], _. split; [done|]. simpl.
    split; [done|]. split; [done|]. right. rewrite <- Hv. eauto 10.
Qed.

Lemma loop_body_returns file_path w :
  body file_path w = (Return tt, (body file_path w).2).
Proof.
  destruct (loop_body_spec file_path w) as (lines & w' & -> & _). done.
Qed.

Lemma for_each_cons file_path rest w :
  for_each (file_path :: rest) body w
  = for_each rest body (body file_path w).2.
Proof.
  simpl. unfold bind at 1. by rewrite loop_body_returns.
Qed.

(** The loop runs to its end whatever happens to single candidates. *)
Lemma for_each_returns csv_files : ∀ w,
  for_each csv_files body w = (Return tt, (for_each csv_files body w).2).
Proof.
  induction csv_files as [|p l IH]; intros w; [done|].
  rewrite for_each_cons. apply IH.
Qed.

Lemma for_each_files_checked csv_files : ∀ w,
  files_checked (for_each csv_files body w).2
  = (files_checked w + length csv_files)%nat.
Proof.
  induction csv_files as [|p l IH]; intros w; simpl length.
  - simpl. lia.
  - rewrite for_each_cons, IH.
    destruct (loop_body_spec p w) as (lines & w' & -> & Hc & _). simpl. lia.
Qed.

Lemma for_each_out csv_files : ∀ w,
  ∃ lines, w_out (for_each csv_files body w).2 = w_out w ++ lines.
Proof.
  induction csv_files as [|p l IH]; intros w.
  - exists []. simpl. by rewrite app_nil_r.
  - rewrite for_each_cons.
    destruct (loop_body_spec p w) as (lines & w' & -> & _ & Hout & _). simpl.
    destruct (IH w') as [lines' ->]. rewrite Hout, <- app_assoc. eauto.
Qed.

(** *** The counters *)

Lemma counters_grow_snoc l a b :
  counters_grow (l ++ [a]) → (a.1 ≤ b.1)%nat → (a.2 ≤ b.2)%nat →
  counters_grow ((l ++ [a]) ++ [b]).
Proof.
  intros Hg H1 H2 i x y Hx Hy.
  destruct (decide (S i < length (l ++ [a]))%nat) as [Hlt|Hge].
  - rewrite lookup_app_l in Hx by lia. rewrite lookup_app_l in Hy by lia.
    by apply (Hg i).
  - rewrite length_app in Hge. simpl in Hge.
    assert (length (l ++ [a]) = S (length l)) as Hlen
      by (rewrite length_app; simpl; lia).
    pose proof (lookup_lt_Some _ _ _ Hy) as Hi.
    rewrite length_app in Hi. simpl in Hi.
    assert (i = length l) as -> by lia.
    rewrite lookup_app_l in Hx by lia.
    rewrite list_lookup_middle in Hx by done.
    rewrite lookup_app_r in Hy by lia.
    rewrite Hlen, Nat.sub_diag in Hy. simpl in Hy. by simplify_eq.
Qed.

Lemma log_ok_step w w' c d :
  log_ok w →
  counter_log w' = counter_log w ++ [(c, d)] →
  files_checked w' = c → files_deleted w' = d →
  (files_checked w ≤ c)%nat → (files_deleted w ≤ d)%nat → (d ≤ c)%nat →
  log_ok w'.
Proof.
  intros ([l Hl] & Hle & Hg) Hlog <- <- Hc Hd Hdc.
  split; [|split].
  - rewrite Hlog. eauto.
  - rewrite Hlog. apply Forall_app. split; [done|]. by apply Forall_singleton.
  - rewrite Hlog, Hl. apply counters_grow_snoc; [by rewrite <- Hl|done|done].
Qed.

Lemma log_ok_deleted_le_checked w :
  log_ok w → (files_deleted w ≤ files_checked w)%nat.
Proof.
  intros ([l Hl] & Hle & _). rewrite Hl in Hle.
  rewrite Forall_app, Forall_singleton in Hle. by destruct Hle.
Qed.

Lemma loop_body_log_ok file_path w :
  log_ok w → log_ok (body file_path w).2.
Proof.
  intros Hok. pose proof (log_ok_deleted_le_checked w Hok) as Hle.
  destruct (loop_body_spec file_path w)
    as (lines & w' & -> & Hc & _ & [Hrm | Hkeep]); simpl.
  - destruct Hrm as (_ & _ & _ & _ & Hd & Hlog & _).
    set (w0 := mkWorld (w_fs w) (w_out w) (S (files_checked w))
                       (files_deleted w)
                       (counter_log w ++ [(S (files_checked w), files_deleted w)])).
    assert (log_ok w0) as Hok0.
    { eapply (log_ok_step w w0); simpl; eauto; lia. }
    eapply (log_ok_step w0 w'); simpl; eauto; try lia.
    rewrite Hlog, <- app_assoc. done.
  - destruct Hkeep as (_ & Hd & Hlog & _).
    eapply (log_ok_step w w'); eauto; lia.
Qed.

Lemma for_each_log_ok csv_files : ∀ w,
  log_ok w → log_ok (for_each csv_files body w).2.
Proof.
  induction csv_files as [|p l IH]; intros w Hok; [done|].
  rewrite for_each_cons. by apply IH, loop_body_log_ok.
Qed.

End Walker.

(** ** The walk over a directory *)

Section Walk.

Context (chunk_size : positive).

Lemma for_each_log_extends delimiter dry_run verbose csv_files : ∀ w,
  ∃ l, counter_log
         (for_each csv_files (loop_body chunk_size delimiter dry_run verbose) w).2
       = counter_log w ++ l.
Proof.
  induction csv_files as [|p l IH]; intros w.
  - exists []. simpl. by rewrite app_nil_r.
  - rewrite for_each_cons.
    destruct (loop_body_spec chunk_size delimiter dry_run verbose p w)
      as (lines & w' & -> & _ & _ & [Hrm | Hkeep]); simpl.
    + destruct Hrm as (_ & _ & _ & _ & _ & Hlog & _).
      destruct (IH w') as [l' ->]. rewrite Hlog, <- app_assoc. eauto.
    + destruct Hkeep as (_ & _ & Hlog & _).
      destruct (IH w') as [l' ->]. rewrite Hlog, <- app_assoc. eauto.
Qed.

Lemma cleanup_directory_valid directory_path delimiter dry_run verbose recursive w :
  is_directory (w_fs w) directory_path = true →
  cleanup_directory chunk_size directory_path delimiter dry_run verbose recursive w
  = let w2 := (for_each (glob_list (w_fs w) directory_path recursive)
                 (loop_body chunk_size delimiter dry_run verbose)
                 (before_loop directory_path verbose recursive w)).2 in
    (Return (files_checked w2, files_deleted w2), w2).
Proof.
  intros Hdir.
  unfold cleanup_directory, bind at 1, os_path_isdir. rewrite Hdir. simpl.
  unfold bind at 1. unfold init_counters at 1.
  unfold try_except, bind at 1, glob. simpl.
  unfold bind at 1, before_loop, init_counters.
  destruct verbose; simpl.
  - unfold bind at 1. rewrite for_each_returns. done.
  - unfold bind at 1. rewrite for_each_returns. done.
Qed.

Lemma cleanup_directory_invalid directory_path delimiter dry_run verbose recursive w :
  is_directory (w_fs w) directory_path = false →
  cleanup_directory chunk_size directory_path delimiter dry_run verbose recursive w
  = (Raise (ValueError directory_path), w).
Proof.
  intros Hdir.
  unfold cleanup_directory, bind at 1, os_path_isdir. by rewrite Hdir.
Qed.

Lemma before_loop_facts directory_path verbose recursive w :
  let w1 := before_loop directory_path verbose recursive w in
  w_fs w1 = w_fs w ∧ files_checked w1 = 0%nat ∧ files_deleted w1 = 0%nat
  ∧ counter_log w1 = [(0, 0)%nat]
  ∧ (∃ lines, w_out w1 = w_out w ++ lines ∧ no_file_failed lines).
Proof.
  unfold before_loop, init_counters, when, print, ret, emit.
  destruct verbose; simpl; repeat (split; [done|]).
  - eexists. split; [done|]. intros p e.
    rewrite list_elem_of_singleton. by intros [= ].
  - exists []. rewrite app_nil_r. split; [done|]. intros p e.
    apply not_elem_of_nil.
Qed.

End Walk.

(** ** Claims about the walk *)

(** C4.  In every call of [cleanup_directory] on a directory, every pair
    the two counters go through, from (0, 0) to the pair returned, has no
    more deletions than checks, neither counter ever decreases, and the
    pair returned is the last of them.  A call on something that is not a
    directory raises before there are counters. *)
Theorem C4_files_deleted_le_files_checked
    (chunk_size : positive) (directory_path : path) (delimiter : str)
    (dry_run verbose recursive : bool) (w : world) :
  let r := cleanup_directory chunk_size directory_path delimiter
             dry_run verbose recursive w in
  (is_directory (w_fs w) directory_path = true
   ∧ ∃ c d, r.1 = Return (c, d)
            ∧ (d ≤ c)%nat
            ∧ Forall (λ cd, (cd.2 ≤ cd.1)%nat) (counter_log r.2)
            ∧ counters_grow (counter_log r.2)
            ∧ head (counter_log r.2) = Some (0, 0)%nat
            ∧ last (counter_log r.2) = Some (c, d))
  ∨ (is_directory (w_fs w) directory_path = false
     ∧ r = (Raise (ValueError directory_path), w)).
Proof.
  intros r. subst r.
  destruct (is_directory (w_fs w) directory_path) eqn:Hdir.
  2:{ right. split; [done|]. by apply cleanup_directory_invalid. }
  left. split; [done|].
  rewrite cleanup_directory_valid by done. simpl.
  set (w1 := before_loop directory_path verbose recursive w).
  set (csv_files := glob_list (w_fs w) directory_path recursive).
  destruct (before_loop_facts directory_path verbose recursive w)
    as (_ & Hc & Hd & Hlog & _). fold w1 in Hc, Hd, Hlog.
  assert (log_ok w1) as Hok1.
  { split; [|split].
    - exists []. by rewrite Hlog, Hc, Hd.
    - rewrite Hlog. by apply Forall_singleton.
    - rewrite Hlog. intros i a b Ha Hb. by destruct i. }
  pose proof (for_each_log_ok chunk_size delimiter dry_run verbose csv_files w1 Hok1)
    as Hok2.
  destruct (for_each_log_extends chunk_size delimiter dry_run verbose csv_files w1)
    as [l Hext].
  set (w2 := (for_each csv_files _ w1).2) in *.
  exists (files_checked w2), (files_deleted w2).
  split; [done|]. split; [by apply log_ok_deleted_le_checked|].
  destruct Hok2 as ([l' Hl'] & Hle & Hg).
  split; [done|]. split; [done|]. split.
  - by rewrite Hext, Hlog.
  - rewrite Hl'. apply last_snoc.
Qed.

(** C5.  When the processing of a candidate raises, for whatever reason,
    nothing but the count of checked files has changed, the exception is
    caught, one line with the path and the exception goes to the error
    stream, and the loop goes on with the candidates that follow; the loop
    as a whole runs to its end. *)
Theorem C5_failure_on_one_file_does_not_stop_the_walk
    (chunk_size : positive) (delimiter : str) (dry_run verbose : bool)
    (file_path : path) (rest : list path) (w w1 : world) (e : exn) :
  process_file chunk_size delimiter dry_run verbose file_path
    (incr_files_checked w).2 = (Raise e, w1) →
  let body := loop_body chunk_size delimiter dry_run verbose in
  let w' := emit w1 [(stderr, ErrorProcessing file_path e)] in
  w1 = (incr_files_checked w).2
  ∧ body file_path w = (Return tt, w')
  ∧ w_fs w' = w_fs w
  ∧ files_deleted w' = files_deleted w
  ∧ files_checked w' = S (files_checked w)
  ∧ for_each (file_path :: rest) body w = for_each rest body w'
  ∧ ∃ w'', for_each (file_path :: rest) body w = (Return tt, w'').
Proof.
  intros Hraise body w'.
  assert (w1 = (incr_files_checked w).2) as Hw1.
  { revert Hraise. unfold process_file, bind.
    destruct (is_empty_csv_frame chunk_size (incr_files_checked w).2
                file_path delimiter) as (lines & Hw & Hlines).
    destruct (is_empty_csv chunk_size file_path delimiter _) as [[[|]|e0] w0];
      simpl in Hw, Hlines.
    - destruct Hlines as [-> | [? _]]; [|done]. rewrite emit_nil in Hw. subst w0.
      destruct dry_run; [by unfold print|].
      unfold os_remove. simpl.
      destruct (w_fs w !! file_path) as [[[|c] r [|]]|];
        try (by intros [= <- <-]).
      unfold incr_files_deleted, when, print, ret. by destruct verbose.
    - unfold when, print, ret. by destruct verbose.
    - destruct Hlines as [-> | [? _]]; [|done]. rewrite emit_nil in Hw. subst w0.
      by intros [= <- <-]. }
  assert (body file_path w = (Return tt, w')) as Hbody.
  { unfold body, loop_body, bind, try_except, Exception.
    replace (incr_files_checked w)
      with (Return tt, (incr_files_checked w).2) by done.
    rewrite Hraise. done. }
  split; [done|]. split; [done|].
  split; [by subst w' w1|]. split; [by subst w' w1|]. split; [by subst w' w1|].
  split.
  - subst body. rewrite for_each_cons. by rewrite Hbody.
  - eexists. apply for_each_returns.
Qed.

Lemma C5_witness :
  let w := start example_fs in
  let w1 := (incr_files_checked w).2 in
  for_each [["data"; "locked.csv"]; ["data"; "z.csv"]]
    (loop_body CHUNK_SIZE [COMMA] false false) w
  = for_each [["data"; "z.csv"]] (loop_body CHUNK_SIZE [COMMA] false false)
      (emit w1 [(stderr, ErrorProcessing ["data"; "locked.csv"]
                           (OSError EACCES ["data"; "locked.csv"]))]).
Proof.
  intros w w1.
  destruct (C5_failure_on_one_file_does_not_stop_the_walk CHUNK_SIZE [COMMA]
              false false ["data"; "locked.csv"] [["data"; "z.csv"]] w w1
              (OSError EACCES ["data"; "locked.csv"]))
    as (_ & _ & _ & _ & _ & Hgo & _).
  - vm_compute. reflexivity.
  - exact Hgo.
Defined.

(** ** Output since a given state *)

Lemma emit_emit w l1 l2 : emit (emit w l1) l2 = emit w (l1 ++ l2).
Proof. unfold emit; simpl. by rewrite app_assoc. Qed.

Lemma printed_since_app w w' lines :
  w_out w' = w_out w ++ lines → printed_since w w' = lines.
Proof. unfold printed_since. intros ->. by rewrite drop_app_length. Qed.

Lemma printed_since_trans w w1 w' l1 l2 :
  w_out w1 = w_out w ++ l1 → w_out w' = w_out w1 ++ l2 →
  printed_since w w' = l1 ++ printed_since w1 w'.
Proof.
  intros H1 H2.
  rewrite (printed_since_app w1 w' l2) by done.
  apply printed_since_app. by rewrite H2, H1, app_assoc.
Qed.

(** ** [main] around the walk *)

Section Main.

Context (chunk_size : positive) (unicode_lower : str → str) (abspath : str → path).

Lemma main_valid args w :
  let directory_path := abspath (directory args) in
  let delim := special_delimiter unicode_lower (delimiter args) in
  let r := cleanup_directory chunk_size directory_path delim
             (dry_run args) (verbose args) (recursive args)
             (emit w (banner directory_path args delim)) in
  is_directory (w_fs w) directory_path = true →
  main chunk_size unicode_lower abspath args w
  = match r.1 with
    | Return counts => (Return 0%Z, emit r.2 (summary (dry_run args) counts))
    | Raise e => (Return 1%Z, emit r.2 [(stderr, ErrorTop e)])
    end.
Proof.
  intros directory_path delim r Hdir.
  unfold main, try_except, Exception.
  fold directory_path. fold delim.
  unfold bind at 1. unfold os_path_exists at 1.
  assert (is_Some (w_fs w !! directory_path)) as Hex.
  { unfold is_directory in Hdir. destruct (w_fs w !! directory_path); [eauto|done]. }
  rewrite bool_decide_eq_true_2 by done. simpl.
  unfold bind at 1. unfold os_path_isdir at 1. rewrite Hdir. simpl.
  unfold bind at 1. unfold print at 1.
  unfold bind at 1. unfold print at 1.
  unfold bind at 1. unfold print at 1.
  unfold bind at 1. unfold print at 1.
  rewrite !emit_emit. simpl app.
  unfold bind at 1. fold (banner directory_path args delim). fold r.
  destruct r as [[counts|e] w2]; simpl.
  - unfold bind, print, ret. by rewrite !emit_emit.
  - unfold bind, print, ret. done.
Qed.

Lemma main_invalid args w :
  let directory_path := abspath (directory args) in
  is_directory (w_fs w) directory_path = false →
  main chunk_size unicode_lower abspath args w
  = (Return 1%Z,
     emit w [(stderr,
              if bool_decide (is_Some (w_fs w !! directory_path))
              then ErrorNotADirectory directory_path
              else ErrorDoesNotExist directory_path)]).
Proof.
  intros directory_path Hdir.
  unfold main, try_except, Exception.
  fold directory_path.
  unfold bind at 1. unfold os_path_exists at 1.
  destruct (bool_decide (is_Some (w_fs w !! directory_path))); simpl.
  - unfold bind at 1. unfold os_path_isdir at 1. rewrite Hdir. simpl. done.
  - done.
Qed.

End Main.

(** ** Dry run *)

Section DryRun.

Context (chunk_size : positive) (delimiter : str) (verbose : bool).

(** In a dry run the loop leaves the file system and the deletion counter
    as they are, and announces every candidate it classifies empty. *)
Lemma for_each_dry_run csv_files : ∀ w,
  let w' := (for_each csv_files (loop_body chunk_size delimiter true verbose) w).2 in
  w_fs w' = w_fs w
  ∧ files_deleted w' = files_deleted w
  ∧ ∀ p, p ∈ csv_files →
         (is_empty_csv chunk_size p delimiter w).1 = Return true →
         (stdout, WouldDelete p) ∈ printed_since w w'.
Proof.
  induction csv_files as [|q l IH]; intros w.
  - simpl. split; [done|]. split; [done|]. intros p Hp. by apply elem_of_nil in Hp.
  - intros w'. subst w'. rewrite for_each_cons.
    destruct (loop_body_spec chunk_size delimiter true verbose q w)
      as (lines & w1 & -> & _ & Hout & [Hrm | Hkeep]); simpl.
    { by destruct Hrm as [? _]. }
    destruct Hkeep as (Hfs & Hd & _ & Hcase).
    destruct (IH w1) as (Hfs' & Hd' & Hnotice).
    split; [by rewrite Hfs'|]. split; [by rewrite Hd'|].
    intros p Hp Hv.
    destruct (for_each_out chunk_size delimiter true verbose l w1) as [lines' Hout'].
    rewrite (printed_since_trans w w1 _ lines lines') by done.
    apply elem_of_app.
    apply elem_of_cons in Hp as [-> | Hp].
    + left. destruct Hcase as [(_ & _ & ->) | [(_ & ? & _) | [(Hf & _) | (e & He & _)]]].
      * apply list_elem_of_singleton. done.
      * done.
      * rewrite Hv in Hf. done.
      * rewrite Hv in He. done.
    + right. apply Hnotice; [done|].
      rewrite <- Hv. apply is_empty_csv_local. by rewrite Hfs.
Qed.

End DryRun.

Lemma cleanup_directory_out chunk_size directory_path delimiter dry_run verbose recursive w :
  ∃ lines,
    w_out (cleanup_directory chunk_size directory_path delimiter
             dry_run verbose recursive w).2 = w_out w ++ lines.
Proof.
  destruct (is_directory (w_fs w) directory_path) eqn:Hdir.
  - rewrite cleanup_directory_valid by done. simpl.
    destruct (before_loop_facts directory_path verbose recursive w)
      as (_ & _ & _ & _ & lines1 & Hout1 & _).
    destruct (for_each_out chunk_size delimiter dry_run verbose
                (glob_list (w_fs w) directory_path recursive)
                (before_loop directory_path verbose recursive w)) as [lines2 ->].
    rewrite Hout1, <- app_assoc. eauto.
  - rewrite cleanup_directory_invalid by done. exists []. simpl. by rewrite app_nil_r.
Qed.

(** C3.  With the dry-run flag set, [cleanup_directory] leaves the file
    system as it found it; on a directory it returns the number of
    candidates and 0 deletions, after a "would delete" notice for every
    candidate classified empty.  [main] with [--dry-run] leaves the file
    system as it found it as well, and the summary it ends with reports 0
    files. *)
Theorem C3_dry_run_deletes_nothing
    (chunk_size : positive) (unicode_lower : str → str) (abspath : str → path)
    (w : world) :
  (∀ directory_path delimiter verbose recursive,
     let r := cleanup_directory chunk_size directory_path delimiter
                true verbose recursive w in
     w_fs r.2 = w_fs w
     ∧ (is_directory (w_fs w) directory_path = true →
        r.1 = Return (length (glob_list (w_fs w) directory_path recursive), 0%nat)
        ∧ ∀ p, p ∈ glob_list (w_fs w) directory_path recursive →
               (is_empty_csv chunk_size p delimiter w).1 = Return true →
               (stdout, WouldDelete p) ∈ printed_since w r.2))
  ∧ (∀ args, dry_run args = true →
       let m := main chunk_size unicode_lower abspath args w in
       w_fs m.2 = w_fs w
       ∧ (is_directory (w_fs w) (abspath (directory args)) = true →
          m.1 = Return 0%Z
          ∧ ∃ lines c,
              printed_since w m.2 = lines ++ summary true (c, 0%nat))).
Proof.
  assert (∀ directory_path delimiter verbose recursive w,
     let r := cleanup_directory chunk_size directory_path delimiter
                true verbose recursive w in
     w_fs r.2 = w_fs w
     ∧ (is_directory (w_fs w) directory_path = true →
        r.1 = Return (length (glob_list (w_fs w) directory_path recursive), 0%nat)
        ∧ ∀ p, p ∈ glob_list (w_fs w) directory_path recursive →
               (is_empty_csv chunk_size p delimiter w).1 = Return true →
               (stdout, WouldDelete p) ∈ printed_since w r.2)) as Hwalk.
  { clear w. intros directory_path delimiter verbose recursive w r. subst r.
    destruct (is_directory (w_fs w) directory_path) eqn:Hdir.
    2:{ rewrite cleanup_directory_invalid by done. done. }
    rewrite cleanup_directory_valid by done. simpl.
    set (w1 := before_loop directory_path verbose recursive w).
    set (csv_files := glob_list (w_fs w) directory_path recursive).
    destruct (before_loop_facts directory_path verbose recursive w)
      as (Hfs1 & Hc1 & Hd1 & _ & lines1 & Hout1 & _).
    fold w1 in Hfs1, Hc1, Hd1, Hout1.
    destruct (for_each_dry_run chunk_size delimiter verbose csv_files w1)
      as (Hfs2 & Hd2 & Hnotice).
    pose proof (for_each_files_checked chunk_size delimiter true verbose csv_files w1)
      as Hc2.
    destruct (for_each_out chunk_size delimiter true verbose csv_files w1)
      as [lines2 Hout2].
    set (w2 := (for_each csv_files _ w1).2) in *.
    split; [by rewrite Hfs2|]. intros _. split.
    - by rewrite Hc2, Hc1, Hd2, Hd1.
    - intros p Hp Hv.
      rewrite (printed_since_trans w w1 w2 lines1 lines2) by done.
      apply elem_of_app. right. apply Hnotice; [done|].
      rewrite <- Hv. apply is_empty_csv_local. by rewrite Hfs1. }
  split; [intros; apply Hwalk|].
  intros args Hdry m. subst m.
  destruct (is_directory (w_fs w) (abspath (directory args))) eqn:Hdir.
  2:{ rewrite main_invalid by done. done. }
  rewrite main_valid by done. rewrite Hdry.
  set (directory_path := abspath (directory args)).
  set (delim := special_delimiter unicode_lower (delimiter args)).
  set (w0 := emit w (banner directory_path args delim)).
  destruct (Hwalk directory_path delim (verbose args) (recursive args) w0)
    as (Hfs & Hret).
  destruct (Hret Hdir) as [Hr _].
  destruct (cleanup_directory_out chunk_size directory_path delim true
              (verbose args) (recursive args) w0) as [lines Hout].
  rewrite Hr. simpl.
  split; [by rewrite Hfs|]. intros _. split; [done|].
  exists (banner directory_path args delim ++ lines),
         (length (glob_list (w_fs w0) directory_path (recursive args))).
  apply printed_since_app. simpl.
  rewrite Hout. simpl. by rewrite <- !app_assoc.
Qed.

Lemma C3_witness :
  let r := cleanup_directory CHUNK_SIZE ["data"] [COMMA] true false true
             (start example_fs) in
  w_fs r.2 = example_fs
  ∧ r.1 = Return (length (glob_list example_fs ["data"] true), 0%nat)
  ∧ (stdout, WouldDelete ["data"; "sub"; "d.csv"]) ∈ printed_since (start example_fs) r.2.
Proof.
  intros r.
  destruct (C3_dry_run_deletes_nothing CHUNK_SIZE (λ s, s) (λ _, ["data"])
              (start example_fs)) as [Hwalk _].
  destruct (Hwalk ["data"] [COMMA] false true) as (Hfs & Hret).
  destruct (Hret eq_refl) as (Hr & Hnotice).
  split; [exact Hfs|]. split; [exact Hr|].
  apply Hnotice.
  - vm_compute. apply list_elem_of_In. vm_compute. tauto.
  - vm_compute. reflexivity.
Defined.

(** C6.  When the root given on the command line does not exist or is not
    a directory, [main] prints one line that names the path to the error
    stream and returns 1; that line is all the run prints and the file
    system is as it was, so nothing was enumerated, classified or removed.
    [cleanup_directory] itself, called on such a path, raises [ValueError]
    with the path and leaves the whole state untouched. *)
Theorem C6_invalid_root_is_rejected_before_any_file
    (chunk_size : positive) (unicode_lower : str → str) (abspath : str → path)
    (args : arguments) (w : world) :
  let directory_path := abspath (directory args) in
  let m := main chunk_size unicode_lower abspath args w in
  is_directory (w_fs w) directory_path = false →
  (w_fs w !! directory_path = None →
     m = (Return 1%Z, emit w [(stderr, ErrorDoesNotExist directory_path)]))
  ∧ (is_Some (w_fs w !! directory_path) →
     m = (Return 1%Z, emit w [(stderr, ErrorNotADirectory directory_path)]))
  ∧ m.1 = Return 1%Z
  ∧ w_fs m.2 = w_fs w
  ∧ (∃ line, printed_since w m.2 = [(stderr, line)])
  ∧ (∀ delimiter dry_run verbose recursive,
       cleanup_directory chunk_size directory_path delimiter
         dry_run verbose recursive w
       = (Raise (ValueError directory_path), w)).
Proof.
  intros directory_path m Hdir. subst m.
  rewrite main_invalid by done. fold directory_path.
  split; [|split; [|split; [|split; [|split]]]].
  - intros Hnone. rewrite bool_decide_eq_false_2; [done|].
    rewrite Hnone. by intros [? ?].
  - intros Hsome. by rewrite bool_decide_eq_true_2.
  - done.
  - done.
  - eexists. by apply printed_since_app.
  - intros. by apply cleanup_directory_invalid.
Qed.

Lemma C6_witness :
  main CHUNK_SIZE (λ s, s) (λ _, ["data"; "a.csv"])
    (mkArgs (str_of "data/a.csv") false true true [COMMA]) (start example_fs)
  = (Return 1%Z,
     emit (start example_fs) [(stderr, ErrorNotADirectory ["data"; "a.csv"])])
  ∧ main CHUNK_SIZE (λ s, s) (λ _, ["nowhere"])
      (mkArgs (str_of "nowhere") false true true [COMMA]) (start example_fs)
    = (Return 1%Z,
       emit (start example_fs) [(stderr, ErrorDoesNotExist ["nowhere"])]).
Proof.
  split.
  - destruct (C6_invalid_root_is_rejected_before_any_file CHUNK_SIZE (λ s, s)
                (λ _, ["data"; "a.csv"])
                (mkArgs (str_of "data/a.csv") false true true [COMMA])
                (start example_fs) eq_refl) as (_ & Hfile & _).
    apply Hfile. vm_compute. eauto.
  - destruct (C6_invalid_root_is_rejected_before_any_file CHUNK_SIZE (λ s, s)
                (λ _, ["nowhere"])
                (mkArgs (str_of "nowhere") false true true [COMMA])
                (start example_fs) eq_refl) as (Hnone & _).
    apply Hnone. reflexivity.
Defined.

(** ** Delimiter aliases *)

Section Aliases.

Context (unicode_lower : str → str).

Lemma lower_ascii (s : str) :
  forallb is_ascii s = true → lower unicode_lower s = ascii_lower <$> s.
Proof. unfold lower. by intros ->. Qed.

Lemma special_delimiter_pipe arg :
  lower unicode_lower arg = str_of "pipe" →
  special_delimiter unicode_lower arg = [PIPE].
Proof.
  intros H. unfold special_delimiter. by rewrite bool_decide_eq_true_2.
Qed.

Lemma special_delimiter_tab arg :
  lower unicode_lower arg = str_of "tab" →
  special_delimiter unicode_lower arg = [TAB].
Proof.
  intros H. unfold special_delimiter.
  rewrite bool_decide_eq_false_2 by (by rewrite H).
  by rewrite bool_decide_eq_true_2.
Qed.

Lemma special_delimiter_other arg :
  lower unicode_lower arg ≠ str_of "pipe" →
  lower unicode_lower arg ≠ str_of "tab" →
  special_delimiter unicode_lower arg = arg.
Proof.
  intros H1 H2. unfold special_delimiter.
  by rewrite !bool_decide_eq_false_2.
Qed.

End Aliases.

(** The statement of C7 as the specification has it, with "any other
    string" read as any string other than [pipe] and [tab], does not hold:
    [PIPE] is neither, and it is not passed through. *)
Lemma C7_counterexample :
  ¬ (∀ (unicode_lower : str → str) (arg : str),
       arg ≠ str_of "pipe" → arg ≠ str_of "tab" →
       special_delimiter unicode_lower arg = arg).
Proof.
  intros H. specialize (H (λ s, s) (str_of "PIPE")).
  vm_compute in H.
  assert ([124] = [80; 73; 80; 69]) as Habs by (apply H; discriminate).
  discriminate Habs.
Qed.

(** C7, amended.  The argument [pipe] is translated to the character [|]
    and [tab] to the tab character before anything else is done with it, so
    a run with [--delimiter pipe] is the same run as one with
    [--delimiter |] and classifies every file alike.  A string whose
    lowercase form is neither [pipe] nor [tab] is passed on unchanged. *)
Theorem C7_aliases_translated_others_passed_through
    (chunk_size : positive) (unicode_lower : str → str) (abspath : str → path) :
  special_delimiter unicode_lower (str_of "pipe") = [PIPE]
  ∧ special_delimiter unicode_lower (str_of "tab") = [TAB]
  ∧ (∀ dir dry_run verbose recursive w,
       main chunk_size unicode_lower abspath
         (mkArgs dir dry_run verbose recursive (str_of "pipe")) w
       = main chunk_size unicode_lower abspath
           (mkArgs dir dry_run verbose recursive [PIPE]) w)
  ∧ (∀ file_path w,
       is_empty_csv chunk_size file_path
         (special_delimiter unicode_lower (str_of "pipe")) w
       = is_empty_csv chunk_size file_path [PIPE] w)
  ∧ (∀ arg, lower unicode_lower arg ≠ str_of "pipe" →
            lower unicode_lower arg ≠ str_of "tab" →
            special_delimiter unicode_lower arg = arg).
Proof.
  assert (special_delimiter unicode_lower (str_of "pipe") = [PIPE]) as Hpipe.
  { apply special_delimiter_pipe. by apply lower_ascii. }
  assert (special_delimiter unicode_lower [PIPE] = [PIPE]) as Hbar.
  { apply special_delimiter_other; by rewrite lower_ascii. }
  split; [done|]. split.
  { apply special_delimiter_tab. by apply lower_ascii. }
  split; [|split].
  - intros dir dry_run verbose recursive w.
    unfold main. cbn [delimiter directory]. by rewrite Hpipe, Hbar.
  - intros file_path w. by rewrite Hpipe.
  - apply special_delimiter_other.
Qed.

Lemma C7_witness :
  special_delimiter (λ s, s) (str_of ";") = str_of ";".
Proof.
  destruct (C7_aliases_translated_others_passed_through CHUNK_SIZE (λ s, s)
              (λ _, [])) as (_ & _ & _ & _ & Hother).
  apply Hother; vm_compute; discriminate.
Defined.

(** C10.  The aliases are recognised whatever the case of the letters:
    every argument whose lowercase form is [pipe] becomes [|], every one
    whose lowercase form is [tab] becomes the tab character, and neither is
    passed on as it was given; so it is for [PIPE], [Pipe], [TAB] and
    [Tab]. *)
Theorem C10_alias_recognition_ignores_case
    (unicode_lower : str → str) (arg : str) :
  (lower unicode_lower arg = str_of "pipe" →
     special_delimiter unicode_lower arg = [PIPE]
     ∧ special_delimiter unicode_lower arg ≠ arg)
  ∧ (lower unicode_lower arg = str_of "tab" →
     special_delimiter unicode_lower arg = [TAB]
     ∧ special_delimiter unicode_lower arg ≠ arg)
  ∧ special_delimiter unicode_lower (str_of "PIPE") = [PIPE]
  ∧ special_delimiter unicode_lower (str_of "Pipe") = [PIPE]
  ∧ special_delimiter unicode_lower (str_of "TAB") = [TAB]
  ∧ special_delimiter unicode_lower (str_of "Tab") = [TAB].
Proof.
  split; [|split; [|split; [|split; [|split]]]].
  - intros H. rewrite special_delimiter_pipe by done. split; [done|].
    intros <-. by rewrite lower_ascii in H.
  - intros H. rewrite special_delimiter_tab by done. split; [done|].
    intros <-. by rewrite lower_ascii in H.
  - apply special_delimiter_pipe. by apply lower_ascii.
  - apply special_delimiter_pipe. by apply lower_ascii.
  - apply special_delimiter_tab. by apply lower_ascii.
  - apply special_delimiter_tab. by apply lower_ascii.
Qed.

Lemma C10_witness :
  special_delimiter (λ s, s) (str_of "pIpE") = [PIPE]
  ∧ special_delimiter (λ s, s) (str_of "pIpE") ≠ str_of "pIpE".
Proof.
  destruct (C10_alias_recognition_ignores_case (λ s, s) (str_of "pIpE"))
    as (Hpipe & _).
  apply Hpipe. reflexivity.
Defined.

(** ** A delimiter that is not one character *)

Section BadDelimiter.

Context (chunk_size : positive) (delimiter : str).
Context (Hlen : length delimiter ≠ 1%nat).

Lemma new_reader_bad_delimiter csvfile :
  Csv.new_reader csvfile delimiter = Raise TypeError.
Proof using Hlen. by destruct delimiter as [|d [|d' l]]. Qed.

Lemma is_empty_csv_bad_delimiter file_path w :
  is_empty_csv chunk_size file_path delimiter w
  = (Raise (reader_error (w_fs w) file_path), w).
Proof using Hlen.
  unfold is_empty_csv, read_header_and_row, try_except, bind, open_text, open_inode, reader_error.
  destruct (w_fs w !! file_path) as [[[|c] [|] u]|]; simpl; try done.
  by rewrite new_reader_bad_delimiter.
Qed.

Lemma for_each_bad_delimiter dry_run verbose csv_files : ∀ w,
  let w' := (for_each csv_files (loop_body chunk_size delimiter dry_run verbose) w).2 in
  w_fs w' = w_fs w
  ∧ files_deleted w' = files_deleted w
  ∧ w_out w'
    = w_out w ++ ((λ p, (stderr, ErrorProcessing p (reader_error (w_fs w) p)))
                    <$> csv_files).
Proof using Hlen.
  induction csv_files as [|q l IH]; intros w.
  - simpl. by rewrite app_nil_r.
  - intros w'. subst w'. rewrite for_each_cons.
    destruct (loop_body_spec chunk_size delimiter dry_run verbose q w)
      as (lines & w1 & -> & _ & Hout & Hcase); simpl.
    rewrite is_empty_csv_bad_delimiter in Hcase. simpl in Hcase.
    destruct Hcase as [(_ & ? & _) | (Hfs & Hd & _ & Hcase)]; [done|].
    destruct Hcase as [(? & _) | [(? & _) | [(? & _) | (e & [= <-] & ->)]]];
      try done.
    destruct (IH w1) as (Hfs' & Hd' & Hout').
    split; [by rewrite Hfs'|]. split; [by rewrite Hd'|].
    rewrite Hout', Hout, Hfs, <- app_assoc. done.
Qed.

End BadDelimiter.

(** C9.  A delimiter that is not a string of one character, and not an
    alias, reaches the walk as it was given.  With such a delimiter the
    classifier raises on every path: the [TypeError] of the reader's
    constructor when the file can be opened (the [OSError] of [open]
    otherwise), and it does not catch it.  The walk over a directory then
    prints one "Error processing" line for every candidate, in order,
    removes nothing, and returns the number of candidates and 0. *)
Theorem C9_multi_character_delimiter_deletes_nothing
    (chunk_size : positive) (directory_path : path) (delimiter : str)
    (dry_run verbose recursive : bool) (w : world) :
  length delimiter ≠ 1%nat →
  (∀ unicode_lower,
     lower unicode_lower delimiter ≠ str_of "pipe" →
     lower unicode_lower delimiter ≠ str_of "tab" →
     special_delimiter unicode_lower delimiter = delimiter)
  ∧ (∀ file_path, is_empty_csv chunk_size file_path delimiter w
                = (Raise (reader_error (w_fs w) file_path), w))
  ∧ (∀ file_path content u,
       w_fs w !! file_path = Some (mkInode (Regular content) true u) →
       is_empty_csv chunk_size file_path delimiter w = (Raise TypeError, w))
  ∧ (is_directory (w_fs w) directory_path = true →
     let csv_files := glob_list (w_fs w) directory_path recursive in
     let r := cleanup_directory chunk_size directory_path delimiter
                dry_run verbose recursive w in
     r.1 = Return (length csv_files, 0%nat)
     ∧ w_fs r.2 = w_fs w
     ∧ printed_since (before_loop directory_path verbose recursive w) r.2
       = (λ p, (stderr, ErrorProcessing p (reader_error (w_fs w) p))) <$> csv_files).
Proof.
  intros Hlen. split; [|split; [|split]].
  - intros unicode_lower. apply special_delimiter_other.
  - intros file_path. by apply is_empty_csv_bad_delimiter.
  - intros file_path content u Hfs.
    rewrite is_empty_csv_bad_delimiter by done.
    unfold reader_error. by rewrite Hfs.
  - intros Hdir csv_files r. subst r.
    rewrite cleanup_directory_valid by done. simpl. fold csv_files.
    set (w1 := before_loop directory_path verbose recursive w).
    destruct (before_loop_facts directory_path verbose recursive w)
      as (Hfs1 & Hc1 & Hd1 & _). fold w1 in Hfs1, Hc1, Hd1.
    destruct (for_each_bad_delimiter chunk_size delimiter Hlen
                dry_run verbose csv_files w1) as (Hfs2 & Hd2 & Hout2).
    pose proof (for_each_files_checked chunk_size delimiter dry_run verbose
                  csv_files w1) as Hc2.
    split; [|split].
    + by rewrite Hc2, Hc1, Hd2, Hd1.
    + by rewrite Hfs2.
    + rewrite <- Hfs1. by apply printed_since_app.
Qed.

Lemma C9_witness :
  let r := cleanup_directory CHUNK_SIZE ["data"] (str_of "::") false false false
             (start example_fs) in
  r.1 = Return (length (glob_list example_fs ["data"] false), 0%nat)
  ∧ w_fs r.2 = example_fs.
Proof.
  intros r.
  destruct (C9_multi_character_delimiter_deletes_nothing CHUNK_SIZE ["data"]
              (str_of "::") false false false (start example_fs))
    as (_ & _ & _ & Hwalk).
  - vm_compute. lia.
  - destruct (Hwalk eq_refl) as (Hr & Hfs & _). split; [exact Hr | exact Hfs].
Defined.

(** ** Two runs in a row *)

Lemma shrunk_refl fs : shrunk fs fs.
Proof. intros q. by left. Qed.

Lemma shrunk_trans fs1 fs2 fs3 : shrunk fs1 fs2 → shrunk fs2 fs3 → shrunk fs1 fs3.
Proof.
  intros H12 H23 q.
  destruct (H23 q) as [-> | (-> & c & r & H2)]; [apply H12|].
  right. split; [done|].
  destruct (H12 q) as [<- | (Hn & _)]; [eauto|]. by rewrite Hn in H2.
Qed.

Lemma shrunk_delete fs p c r :
  fs !! p = Some (mkInode (Regular c) r true) → shrunk fs (delete p fs).
Proof.
  intros Hp q. destruct (decide (p = q)) as [<- | Hne].
  - right. rewrite lookup_delete_eq. eauto.
  - left. by rewrite lookup_delete_ne.
Qed.

Lemma shrunk_is_directory fs fs' d :
  shrunk fs fs' → is_directory fs' d = is_directory fs d.
Proof.
  intros Hs. unfold is_directory.
  destruct (Hs d) as [-> | (-> & c & r & ->)]; done.
Qed.

Lemma shrunk_scan_reaches fs fs' rel : ∀ d,
  shrunk fs fs' → scan_reaches fs' d rel = true → scan_reaches fs d rel = true.
Proof.
  induction rel as [|name rel IH]; intros d Hs; [done|].
  simpl. destruct rel as [|name' rel].
  - rewrite (shrunk_is_directory fs fs') by done.
    intros [[-> ->]%andb_true_iff Hex%bool_decide_eq_true]%andb_true_iff. simpl.
    apply bool_decide_eq_true.
    destruct (Hs (d ++ [name])) as [<- | (Hn & _)]; [done|].
    rewrite Hn in Hex. by destruct Hex.
  - rewrite (shrunk_is_directory fs fs') by done.
    intros [-> Hrest]%andb_true_iff. simpl. by apply IH.
Qed.

Lemma elem_of_glob_list fs d recursive p :
  p ∈ glob_list fs d recursive
  ↔ glob_matches fs d recursive p = true ∧ is_Some (fs !! p).
Proof.
  unfold glob_list. rewrite list_elem_of_filter.
  split; intros [Hm Hp]; (split; [done|]).
  - apply list_elem_of_fmap in Hp as [[p' i] [-> Hp]].
    apply elem_of_map_to_list in Hp. simpl. eauto.
  - destruct Hp as [i Hi]. apply list_elem_of_fmap.
    exists (p, i). split; [done|]. by apply elem_of_map_to_list.
Qed.

(** A scan after removals finds nothing new, and what it finds is as it
    was. *)
Lemma shrunk_glob_list fs fs' d recursive p :
  shrunk fs fs' → p ∈ glob_list fs' d recursive →
  p ∈ glob_list fs d recursive ∧ fs' !! p = fs !! p ∧ is_Some (fs' !! p).
Proof.
  intros Hs [Hm Hp]%elem_of_glob_list.
  assert (fs' !! p = fs !! p) as Heq.
  { destruct (Hs p) as [? | (Hn & _)]; [done|]. rewrite Hn in Hp. by destruct Hp. }
  split; [|done].
  apply elem_of_glob_list. split; [|by rewrite <- Heq].
  revert Hm. unfold glob_matches.
  intros [[-> ->]%andb_true_iff Hr]%andb_true_iff. simpl.
  by eapply shrunk_scan_reaches.
Qed.

Section TwoRuns.

Context (chunk_size : positive) (delimiter : str) (verbose : bool).

Local Abbreviation body := (loop_body chunk_size delimiter false verbose).
Local Abbreviation classify p w := (is_empty_csv chunk_size p delimiter w).1.

Lemma loop_body_shrunk p w : shrunk (w_fs w) (w_fs (body p w).2).
Proof.
  destruct (loop_body_spec chunk_size delimiter false verbose p w)
    as (lines & w1 & -> & _ & _ & [Hrm | Hkeep]); simpl.
  - destruct Hrm as (_ & _ & (c & r & Hp) & -> & _). by eapply shrunk_delete.
  - destruct Hkeep as (-> & _). apply shrunk_refl.
Qed.

Lemma for_each_shrunk csv_files : ∀ w,
  shrunk (w_fs w) (w_fs (for_each csv_files body w).2).
Proof.
  induction csv_files as [|p l IH]; intros w; [apply shrunk_refl|].
  rewrite for_each_cons.
  eapply shrunk_trans; [apply loop_body_shrunk | apply IH].
Qed.

(** After a loop in which no candidate failed, a candidate classified
    empty is gone, and a candidate still there was classified not
    empty. *)
Lemma for_each_without_failure csv_files : ∀ w lines,
  let w' := (for_each csv_files body w).2 in
  w_out w' = w_out w ++ lines → no_file_failed lines →
  ∀ p, p ∈ csv_files →
       (classify p w = Return true → w_fs w' !! p = None)
       ∧ (is_Some (w_fs w' !! p) → classify p w = Return false).
Proof.
  induction csv_files as [|q l IH]; intros w lines w' Hout Hnf p Hp.
  { by apply elem_of_nil in Hp. }
  subst w'. rewrite for_each_cons in Hout |- *.
  pose proof (for_each_shrunk l (body q w).2) as Hrest.
  destruct (for_each_out chunk_size delimiter false verbose l (body q w).2)
    as [lines' Hout'].
  destruct (loop_body_spec chunk_size delimiter false verbose q w)
    as (lines1 & w1 & Hq & _ & Hout1 & Hcase).
  rewrite Hq in Hout, Hout', Hrest |- *. simpl in Hout, Hout', Hrest |- *.
  assert (lines = lines1 ++ lines') as ->.
  { rewrite Hout', Hout1, <- app_assoc in Hout. by apply app_inv_head in Hout. }
  assert (no_file_failed lines1 ∧ no_file_failed lines') as [Hnf1 Hnf'].
  { split; intros p' e' Hin; apply (Hnf p' e'), elem_of_app; auto. }
  destruct (decide (p = q)) as [-> | Hne].
  - destruct Hcase as [Hrm | (Hfs & _ & _ & Hkeep)].
    + destruct Hrm as (_ & _ & _ & Hfs & _).
      assert (w_fs (for_each l body w1).2 !! q = None) as Hgone.
      { destruct (Hrest q) as [-> | [? _]]; [|done].
        rewrite Hfs. apply lookup_delete_eq. }
      split; [done|]. rewrite Hgone. by intros [? ?].
    + destruct Hkeep as [(_ & ? & _) | [(_ & _ & e & _ & ->)
                        | [(Hv & _) | (e & _ & ->)]]].
      * done.
      * exfalso. apply (Hnf1 q e), list_elem_of_singleton. done.
      * split; [by rewrite Hv|done].
      * exfalso. apply (Hnf1 q e), list_elem_of_singleton. done.
  - apply elem_of_cons in Hp as [? | Hp]; [done|].
    assert (w_fs w1 !! p = w_fs w !! p) as Hsame.
    { destruct Hcase as [(_ & _ & _ & -> & _) | (-> & _)]; [|done].
      by apply lookup_delete_ne. }
    rewrite <- (is_empty_csv_local chunk_size w1 w p delimiter Hsame).
    by apply (IH w1 lines').
Qed.

(** A loop over candidates that are all classified not empty changes
    neither the file system nor the deletion counter. *)
Lemma for_each_nothing_empty csv_files : ∀ w,
  (∀ p, p ∈ csv_files → classify p w = Return false) →
  let w' := (for_each csv_files body w).2 in
  w_fs w' = w_fs w ∧ files_deleted w' = files_deleted w.
Proof.
  induction csv_files as [|q l IH]; intros w Hall; [done|].
  intros w'. subst w'. rewrite for_each_cons.
  destruct (loop_body_spec chunk_size delimiter false verbose q w)
    as (lines1 & w1 & -> & _ & _ & Hcase). simpl.
  destruct Hcase as [(_ & Hv & _) | (Hfs & Hd & _)].
  { rewrite Hall in Hv by apply list_elem_of_here. done. }
  destruct (IH w1) as [-> ->]; [|done].
  intros p Hp.
  rewrite (is_empty_csv_local chunk_size w1 w p delimiter) by (by rewrite Hfs).
  apply Hall. by apply list_elem_of_further.
Qed.

End TwoRuns.

(** C8.  Two runs of [cleanup_directory] in a row over the same directory,
    not in dry-run mode, the second on the state the first one left.  If no
    candidate of the first run met the per-file error handler, then every
    candidate the first run classified empty is gone after it, every
    candidate of the second run is classified not empty, and the second run
    removes nothing: it returns 0 deletions and leaves the file system as
    the first run left it. *)
Theorem C8_second_run_deletes_nothing
    (chunk_size : positive) (directory_path : path) (delimiter : str)
    (verbose recursive : bool) (w : world) :
  let r1 := cleanup_directory chunk_size directory_path delimiter
              false verbose recursive w in
  let r2 := cleanup_directory chunk_size directory_path delimiter
              false verbose recursive r1.2 in
  is_directory (w_fs w) directory_path = true →
  no_file_failed (printed_since w r1.2) →
  r2.1 = Return (length (glob_list (w_fs r1.2) directory_path recursive), 0%nat)
  ∧ w_fs r2.2 = w_fs r1.2
  ∧ (∀ p, p ∈ glob_list (w_fs w) directory_path recursive →
          (is_empty_csv chunk_size p delimiter w).1 = Return true →
          w_fs r1.2 !! p = None)
  ∧ (∀ p, p ∈ glob_list (w_fs r1.2) directory_path recursive →
          (is_empty_csv chunk_size p delimiter r1.2).1 = Return false).
Proof.
  intros r1 r2 Hdir Hnf. subst r2 r1.
  rewrite (cleanup_directory_valid chunk_size directory_path delimiter
             false verbose recursive w Hdir) in *.
  simpl in *.
  set (w0 := before_loop directory_path verbose recursive w) in *.
  set (files0 := glob_list (w_fs w) directory_path recursive) in *.
  destruct (before_loop_facts directory_path verbose recursive w)
    as (Hfs0 & _ & _ & _ & lines0 & Hout0 & _). fold w0 in Hfs0, Hout0.
  destruct (for_each_out chunk_size delimiter false verbose files0 w0)
    as [lines1 Hout1].
  pose proof (for_each_shrunk chunk_size delimiter verbose files0 w0) as Hshrunk.
  pose proof (for_each_without_failure chunk_size delimiter verbose files0 w0
                lines1 Hout1) as Hfirst.
  set (w1 := (for_each files0 _ w0).2) in *.
  rewrite Hfs0 in Hshrunk.
  assert (no_file_failed lines1) as Hnf1.
  { rewrite (printed_since_trans w w0 w1 lines0 lines1) in Hnf by done.
    rewrite (printed_since_app w0 w1 lines1) in Hnf by done.
    intros p e Hin. apply (Hnf p e), elem_of_app. auto. }
  specialize (Hfirst Hnf1).
  assert (∀ p, p ∈ glob_list (w_fs w1) directory_path recursive →
               (is_empty_csv chunk_size p delimiter w1).1 = Return false) as Hsecond.
  { intros p Hp.
    destruct (shrunk_glob_list _ _ _ _ _ Hshrunk Hp) as (Hp0 & Hsame & Hsome).
    destruct (Hfirst p Hp0) as [_ Hkept].
    rewrite <- (Hkept Hsome).
    apply is_empty_csv_local. by rewrite Hsame, Hfs0. }
  assert (is_directory (w_fs w1) directory_path = true) as Hdir1.
  { by rewrite (shrunk_is_directory (w_fs w) (w_fs w1)). }
  rewrite (cleanup_directory_valid chunk_size directory_path delimiter
             false verbose recursive w1 Hdir1).
  simpl.
  set (w2 := before_loop directory_path verbose recursive w1).
  destruct (before_loop_facts directory_path verbose recursive w1)
    as (Hfs2 & Hc2 & Hd2 & _). fold w2 in Hfs2, Hc2, Hd2.
  set (files1 := glob_list (w_fs w1) directory_path recursive) in *.
  destruct (for_each_nothing_empty chunk_size delimiter verbose files1 w2)
    as [Hfs3 Hd3].
  { intros p Hp. rewrite <- (Hsecond p Hp).
    apply is_empty_csv_local. by rewrite Hfs2. }
  pose proof (for_each_files_checked chunk_size delimiter false verbose files1 w2)
    as Hc3.
  split; [|split; [|split]].
  - by rewrite Hc3, Hc2, Hd3, Hd2.
  - by rewrite Hfs3.
  - intros p Hp Hv. apply (Hfirst p Hp).
    rewrite <- Hv. apply is_empty_csv_local. by rewrite Hfs0.
  - done.
Qed.

Lemma C8_witness :
  let r1 := cleanup_directory CHUNK_SIZE ["data"] [COMMA] false false true
              (start tidy_fs) in
  let r2 := cleanup_directory CHUNK_SIZE ["data"] [COMMA] false false true r1.2 in
  r2.1 = Return (length (glob_list (w_fs r1.2) ["data"] true), 0%nat)
  ∧ w_fs r2.2 = w_fs r1.2.
Proof.
  intros r1 r2.
  destruct (C8_second_run_deletes_nothing CHUNK_SIZE ["data"] [COMMA] false true
              (start tidy_fs)) as (Hr & Hfs & _).
  - reflexivity.
  - intros p e. vm_compute. intros Hin. apply list_elem_of_In in Hin.
    simpl in Hin.
    repeat (destruct Hin as [Hin | Hin]; [discriminate Hin|]). destruct Hin.
  - split; [exact Hr | exact Hfs].
Defined.

(** ** The scenarios of the specification *)

(** 1. A file with only a header line is removed; checked 1, deleted 1. *)
Example scenario_header_only :
  let r := run_main (scenario_args false false)
             (scenario_fs "a.csv" (bytes_of ("name,age" +:+ nl))) in
  r.1 = Return 0%Z
  ∧ w_fs r.2 !! ["data"; "a.csv"] = None
  ∧ w_out r.2
    = banner ["data"] (scenario_args false false) [COMMA] ++ summary false (1, 1)%nat.
Proof. split_and!; vm_compute; reflexivity. Qed.

(** 2. A file with a data row is left alone; checked 1, deleted 0. *)
Example scenario_with_data :
  let content := bytes_of ("name,age" +:+ nl +:+ "bob,30" +:+ nl) in
  let r := run_main (scenario_args false false) (scenario_fs "b.csv" content) in
  r.1 = Return 0%Z
  ∧ w_fs r.2 !! ["data"; "b.csv"] = Some (file content)
  ∧ w_out r.2
    = banner ["data"] (scenario_args false false) [COMMA] ++ summary false (1, 0)%nat.
Proof. split_and!; vm_compute; reflexivity. Qed.

(** 3. A file of bytes that are not UTF-8 is left alone, with a warning. *)
Example scenario_binary :
  let content := [xff; xfe; x00; x80] in
  let r := run_main (scenario_args false false) (scenario_fs "c.csv" content) in
  r.1 = Return 0%Z
  ∧ w_fs r.2 !! ["data"; "c.csv"] = Some (file content)
  ∧ w_out r.2
    = banner ["data"] (scenario_args false false) [COMMA]
      ++ [(stderr, WarningCouldNotProcess ["data"; "c.csv"] UnicodeDecodeError)]
      ++ summary false (1, 0)%nat.
Proof. split_and!; vm_compute; reflexivity. Qed.

(** 4. Without [--recursive] only the file at the top is removed, with it
    the one in the subdirectory as well. *)
Example scenario_recursive :
  let flat := run_main (scenario_args false false) nested_fs in
  let deep := run_main (scenario_args false true) nested_fs in
  w_fs flat.2 !! ["data"; "e.csv"] = None
  ∧ w_fs flat.2 !! ["data"; "sub"; "d.csv"] = Some (file (bytes_of "h"))
  ∧ w_fs deep.2 !! ["data"; "e.csv"] = None
  ∧ w_fs deep.2 !! ["data"; "sub"; "d.csv"] = None.
Proof. split_and!; vm_compute; reflexivity. Qed.

(** 5. With [--dry-run] the file stays, a notice is printed, 0 reported. *)
Example scenario_dry_run :
  let content := bytes_of ("name,age" +:+ nl) in
  let r := run_main (scenario_args true false) (scenario_fs "f.csv" content) in
  r.1 = Return 0%Z
  ∧ w_fs r.2 !! ["data"; "f.csv"] = Some (file content)
  ∧ w_out r.2
    = banner ["data"] (scenario_args true false) [COMMA]
      ++ [(stdout, WouldDelete ["data"; "f.csv"])]
      ++ summary true (1, 0)%nat.
Proof. split_and!; vm_compute; reflexivity. Qed.

(** * Further properties *)

(** ** What a walk removes *)

Section Removal.

Context (chunk_size : positive) (delimiter : str) (dry_run verbose : bool).

Local Abbreviation body := (loop_body chunk_size delimiter dry_run verbose).
Local Abbreviation classify p w := (is_empty_csv chunk_size p delimiter w).1.

(** Every entry is after the loop as it was before, unless the run is not a
    dry run and the entry is a candidate classified empty that could be
    unlinked; then it is gone. *)
Lemma for_each_removed csv_files : ∀ w q,
  let w' := (for_each csv_files body w).2 in
  w_fs w' !! q = w_fs w !! q
  ∨ (w_fs w' !! q = None ∧ dry_run = false ∧ q ∈ csv_files
     ∧ classify q w = Return true ∧ unlinkable_file (w_fs w !! q)).
Proof.
  induction csv_files as [|p l IH]; intros w q; [by left|].
  intros w'. subst w'. rewrite for_each_cons.
  destruct (loop_body_spec chunk_size delimiter dry_run verbose p w)
    as (lines & w1 & -> & _ & _ & Hcase). simpl.
  destruct Hcase as [(Hdry & Hv & Hfile & Hfs & _) | (Hfs & _)].
  - destruct (IH w1 q) as [Hq | (Hq & _ & Hin & Hvq & c & r & Hfq)].
    + rewrite Hq, Hfs. destruct (decide (p = q)) as [<- | Hne].
      * right. rewrite lookup_delete_eq. split_and!; try done.
        apply list_elem_of_here.
      * left. by rewrite lookup_delete_ne.
    + right. assert (p ≠ q) as Hne.
      { intros <-. by rewrite Hfs, lookup_delete_eq in Hfq. }
      assert (w_fs w1 !! q = w_fs w !! q) as Hsame
        by (by rewrite Hfs, lookup_delete_ne).
      split_and!; try done.
      * by apply list_elem_of_further.
      * by rewrite <- (is_empty_csv_local chunk_size w1 w q delimiter Hsame).
      * exists c, r. by rewrite <- Hsame.
  - destruct (IH w1 q) as [Hq | (Hq & Hdry & Hin & Hvq & c & r & Hfq)].
    + left. by rewrite Hq, Hfs.
    + right. split_and!; try done.
      * by apply list_elem_of_further.
      * rewrite <- Hvq. apply is_empty_csv_local. by rewrite Hfs.
      * exists c, r. by rewrite <- Hfs.
Qed.

(** The deletion counter grows by the number of entries that went. *)
Lemma for_each_size csv_files : ∀ w,
  let w' := (for_each csv_files body w).2 in
  (size (w_fs w') + files_deleted w' = size (w_fs w) + files_deleted w)%nat.
Proof.
  induction csv_files as [|p l IH]; intros w; [done|].
  intros w'. subst w'. rewrite for_each_cons.
  destruct (loop_body_spec chunk_size delimiter dry_run verbose p w)
    as (lines & w1 & -> & _ & _ & Hcase). simpl.
  rewrite IH.
  destruct Hcase as [(_ & _ & (c & r & Hfile) & -> & -> & _) | (-> & -> & _)];
    [|done].
  rewrite map_size_delete_Some by eauto.
  assert (size (w_fs w) ≠ 0)%nat; [|lia].
  intros Hz. apply map_size_empty_inv in Hz. by rewrite Hz in Hfile.
Qed.

End Removal.

Lemma scan_reaches_name fs rel : ∀ d,
  scan_reaches fs d rel = true →
  ∃ name, last rel = Some name ∧ fnmatch_csv name = true.
Proof.
  induction rel as [|name rel IH]; intros d; [done|].
  simpl. destruct rel as [|name' rel].
  - intros [[_ Hm]%andb_true_iff _]%andb_true_iff. eauto.
  - intros [_ Hrest]%andb_true_iff.
    destruct (IH _ Hrest) as (n & Hlast & Hm). exists n. by rewrite last_cons_cons.
Qed.

Lemma glob_list_name fs d recursive p :
  p ∈ glob_list fs d recursive →
  ∃ name, last p = Some name ∧ fnmatch_csv name = true.
Proof.
  intros [Hm _]%elem_of_glob_list. revert Hm. unfold glob_matches.
  intros [_ Hr]%andb_true_iff.
  destruct (scan_reaches_name _ _ _ Hr) as (name & Hlast & Hname).
  exists name. split; [|done].
  rewrite <- (take_drop (length d) p), last_app, Hlast. done.
Qed.

(** X1.  Whatever the flags, a call of [cleanup_directory] leaves every
    entry of the file system as it was, except that an entry may be gone;
    and an entry that is gone was, in a run that is not a dry run, a
    candidate of the scan whose name ends in [.csv], a regular file that
    could be unlinked, and classified empty. *)
Theorem X1_only_empty_candidates_are_removed
    (chunk_size : positive) (directory_path : path) (delimiter : str)
    (dry_run verbose recursive : bool) (w : world) (q : path) :
  let r := cleanup_directory chunk_size directory_path delimiter
             dry_run verbose recursive w in
  w_fs r.2 !! q = w_fs w !! q
  ∨ (w_fs r.2 !! q = None
     ∧ dry_run = false
     ∧ q ∈ glob_list (w_fs w) directory_path recursive
     ∧ (∃ name, last q = Some name ∧ fnmatch_csv name = true)
     ∧ unlinkable_file (w_fs w !! q)
     ∧ (is_empty_csv chunk_size q delimiter w).1 = Return true).
Proof.
  intros r. subst r.
  destruct (is_directory (w_fs w) directory_path) eqn:Hdir.
  2:{ rewrite cleanup_directory_invalid by done. by left. }
  rewrite cleanup_directory_valid by done. simpl.
  destruct (before_loop_facts directory_path verbose recursive w) as (Hfs0 & _).
  destruct (for_each_removed chunk_size delimiter dry_run verbose
              (glob_list (w_fs w) directory_path recursive)
              (before_loop directory_path verbose recursive w) q)
    as [Hq | (Hq & Hdry & Hin & Hv & Hfile)].
  - left. by rewrite Hq, Hfs0.
  - right. rewrite Hfs0 in Hfile. split_and!; try done.
    + by eapply glob_list_name.
    + rewrite <- Hv. apply is_empty_csv_local. by rewrite Hfs0.
Qed.

(** X2.  On a directory, whatever the flags and whatever happens to single
    candidates, the first number returned is the number of candidates the
    scan found, and the scan lists no candidate twice. *)
Theorem X2_every_candidate_is_checked_once
    (chunk_size : positive) (directory_path : path) (delimiter : str)
    (dry_run verbose recursive : bool) (w : world) :
  is_directory (w_fs w) directory_path = true →
  let csv_files := glob_list (w_fs w) directory_path recursive in
  let r := cleanup_directory chunk_size directory_path delimiter
             dry_run verbose recursive w in
  NoDup csv_files
  ∧ ∃ d, r.1 = Return (length csv_files, d) ∧ (d ≤ length csv_files)%nat.
Proof.
  intros Hdir csv_files r. subst r. split.
  { apply NoDup_filter, NoDup_fst_map_to_list. }
  rewrite cleanup_directory_valid by done. simpl. fold csv_files.
  set (w0 := before_loop directory_path verbose recursive w).
  destruct (before_loop_facts directory_path verbose recursive w)
    as (_ & Hc & Hd & Hlog & _). fold w0 in Hc, Hd, Hlog.
  pose proof (for_each_files_checked chunk_size delimiter dry_run verbose
                csv_files w0) as Hchecked.
  assert (log_ok w0) as Hok.
  { split; [|split].
    - exists []. by rewrite Hlog, Hc, Hd.
    - rewrite Hlog. by apply Forall_singleton.
    - rewrite Hlog. intros i a b Ha Hb. by destruct i. }
  pose proof (log_ok_deleted_le_checked _
                (for_each_log_ok chunk_size delimiter dry_run verbose
                   csv_files w0 Hok)) as Hle.
  rewrite Hchecked, Hc in *. simpl in *. eauto.
Qed.

Lemma X2_witness :
  ∃ d, (cleanup_directory CHUNK_SIZE ["data"] [COMMA] false true true
          (start example_fs)).1
       = Return (length (glob_list example_fs ["data"] true), d).
Proof.
  destruct (X2_every_candidate_is_checked_once CHUNK_SIZE ["data"] [COMMA]
              false true true (start example_fs) eq_refl) as (_ & d & Hr & _).
  exists d. exact Hr.
Defined.

(** X3.  On a directory, the second number returned is the number of
    entries by which the file system has become smaller. *)
Theorem X3_deleted_count_is_number_of_removed_entries
    (chunk_size : positive) (directory_path : path) (delimiter : str)
    (dry_run verbose recursive : bool) (w : world) :
  is_directory (w_fs w) directory_path = true →
  let r := cleanup_directory chunk_size directory_path delimiter
             dry_run verbose recursive w in
  ∃ c d, r.1 = Return (c, d)
         ∧ (size (w_fs r.2) + d = size (w_fs w))%nat.
Proof.
  intros Hdir r. subst r.
  rewrite cleanup_directory_valid by done. simpl.
  set (w0 := before_loop directory_path verbose recursive w).
  destruct (before_loop_facts directory_path verbose recursive w)
    as (Hfs & _ & Hd & _). fold w0 in Hfs, Hd.
  pose proof (for_each_size chunk_size delimiter dry_run verbose
                (glob_list (w_fs w) directory_path recursive) w0) as Hsize.
  simpl in Hsize. rewrite Hd, Hfs in Hsize.
  eexists _, _. split; [done|]. lia.
Qed.

Lemma X3_witness :
  ∃ c d, (cleanup_directory CHUNK_SIZE ["data"] [COMMA] false false false
            (start example_fs)).1 = Return (c, d)
         ∧ (size (w_fs (cleanup_directory CHUNK_SIZE ["data"] [COMMA] false false
                          false (start example_fs)).2) + d
            = size example_fs)%nat.
Proof.
  exact (X3_deleted_count_is_number_of_removed_entries CHUNK_SIZE ["data"]
           [COMMA] false false false (start example_fs) eq_refl).
Defined.

(** ** The two patterns of the scan *)

Lemma glob_list_flat fs d p :
  p ∈ glob_list fs d false
  ↔ ∃ name, p = d ++ [name] ∧ fnmatch_csv name = true
            ∧ is_directory fs d = true ∧ is_Some (fs !! p).
Proof.
  rewrite elem_of_glob_list. unfold glob_matches. simpl. split.
  - intros [[[Htake%bool_decide_eq_true Hlen%bool_decide_eq_true]%andb_true_iff
              Hr]%andb_true_iff Hp].
    destruct (drop (length d) p) as [|name [|]] eqn:Hdrop; try done.
    exists name.
    assert (p = d ++ [name]) as ->.
    { by rewrite <- (take_drop (length d) p), Htake, Hdrop. }
    simpl in Hr.
    apply andb_true_iff in Hr as [[Hd Hm]%andb_true_iff _]. done.
  - intros (name & -> & Hm & Hd & Hp). split; [|done].
    rewrite take_app_length, drop_app_length. simpl.
    rewrite Hd, Hm, !bool_decide_eq_true_2; done.
Qed.

Lemma glob_list_flat_recursive fs d p :
  p ∈ glob_list fs d false → p ∈ glob_list fs d true.
Proof.
  rewrite !elem_of_glob_list. unfold glob_matches. simpl.
  intros [[[-> _]%andb_true_iff ->]%andb_true_iff Hp]. done.
Qed.

(** X4.  Without [--recursive] the candidates are exactly the entries
    directly in the directory whose names end in [.csv]; with it the scan
    finds all of these and possibly more, so a recursive run checks at
    least as many files as a run that is not recursive. *)
Theorem X4_recursive_scan_finds_a_superset
    (chunk_size : positive) (directory_path : path) (delimiter : str)
    (dry_run verbose : bool) (w : world) :
  is_directory (w_fs w) directory_path = true →
  let flat := glob_list (w_fs w) directory_path false in
  let deep := glob_list (w_fs w) directory_path true in
  (∀ p, p ∈ flat ↔ ∃ name, p = directory_path ++ [name]
                           ∧ fnmatch_csv name = true
                           ∧ is_Some (w_fs w !! p))
  ∧ (∀ p, p ∈ flat → p ∈ deep)
  ∧ ∃ c1 d1 c2 d2,
      (cleanup_directory chunk_size directory_path delimiter
         dry_run verbose false w).1 = Return (c1, d1)
      ∧ (cleanup_directory chunk_size directory_path delimiter
           dry_run verbose true w).1 = Return (c2, d2)
      ∧ (c1 ≤ c2)%nat.
Proof.
  intros Hdir flat deep. split; [|split].
  - intros p. subst flat. rewrite glob_list_flat. split.
    + intros (name & ? & ? & ? & ?). eauto.
    + intros (name & ? & ? & ?). eauto 6.
  - intros p. apply glob_list_flat_recursive.
  - rewrite !cleanup_directory_valid by done. simpl.
    rewrite !for_each_files_checked.
    destruct (before_loop_facts directory_path verbose false w)
      as (_ & -> & _).
    destruct (before_loop_facts directory_path verbose true w)
      as (_ & -> & _).
    eexists _, _, _, _. split; [done|]. split; [done|]. simpl.
    apply submseteq_length, NoDup_submseteq.
    + apply NoDup_filter, NoDup_fst_map_to_list.
    + intros p. apply glob_list_flat_recursive.
Qed.

Lemma X4_witness :
  ["data"; "a.csv"] ∈ glob_list example_fs ["data"] true.
Proof.
  destruct (X4_recursive_scan_finds_a_superset CHUNK_SIZE ["data"] [COMMA]
              false false (start example_fs) eq_refl) as (Hflat & Hsub & _).
  apply Hsub, Hflat. exists "a.csv". split; [reflexivity|].
  split; [reflexivity|]. vm_compute. eauto.
Defined.

(** ** What [main] returns and reports *)

(** X6.  [main] never raises, and its exit status tells whether the root
    is a directory and nothing else: 0 when it is, whatever happened to
    single files during the walk, and 1 when it is not. *)
Theorem X6_exit_status
    (chunk_size : positive) (unicode_lower : str → str) (abspath : str → path)
    (args : arguments) (w : world) :
  (main chunk_size unicode_lower abspath args w).1
  = Return (if is_directory (w_fs w) (abspath (directory args))
            then 0%Z else 1%Z).
Proof.
  destruct (is_directory (w_fs w) (abspath (directory args))) eqn:Hdir.
  - rewrite main_valid by done.
    rewrite cleanup_directory_valid by done. done.
  - by rewrite main_invalid.
Qed.

(** X7.  When the root is a directory, the last three lines [main] prints
    are the summary, and the summary is true to what happened: the number
    of files checked is the number of candidates the scan found, and the
    number of files deleted is the number of entries by which the file
    system has become smaller. *)
Theorem X7_summary_counts
    (chunk_size : positive) (unicode_lower : str → str) (abspath : str → path)
    (args : arguments) (w : world) :
  let directory_path := abspath (directory args) in
  let m := main chunk_size unicode_lower abspath args w in
  is_directory (w_fs w) directory_path = true →
  ∃ lines d,
    printed_since w m.2
    = banner directory_path args
        (special_delimiter unicode_lower (delimiter args))
      ++ lines
      ++ summary (dry_run args)
           (length (glob_list (w_fs w) directory_path (recursive args)), d)
    ∧ (size (w_fs m.2) + d = size (w_fs w))%nat.
Proof.
  intros directory_path m Hdir. subst m.
  rewrite main_valid by done. fold directory_path.
  set (delim := special_delimiter unicode_lower (delimiter args)).
  set (w0 := emit w (banner directory_path args delim)).
  destruct (cleanup_directory_out chunk_size directory_path delim (dry_run args)
              (verbose args) (recursive args) w0) as [lines Hout].
  revert Hout.
  rewrite (cleanup_directory_valid chunk_size directory_path delim
             (dry_run args) (verbose args) (recursive args) w0) by done.
  simpl.
  set (w1 := before_loop directory_path (verbose args) (recursive args) w0).
  destruct (before_loop_facts directory_path (verbose args) (recursive args) w0)
    as (Hfs & Hc & Hd & _). fold w1 in Hfs, Hc, Hd.
  pose proof (for_each_size chunk_size delim (dry_run args) (verbose args)
                (glob_list (w_fs w) directory_path (recursive args)) w1) as Hsize.
  pose proof (for_each_files_checked chunk_size delim (dry_run args) (verbose args)
                (glob_list (w_fs w) directory_path (recursive args)) w1) as Hchk.
  simpl in Hsize. rewrite Hd, Hfs in Hsize. rewrite Hc in Hchk.
  intros Hout.
  eexists lines, _. split.
  - apply printed_since_app. simpl. rewrite Hout. simpl.
    rewrite Hchk. simpl. rewrite <- !app_assoc. reflexivity.
  - simpl. replace (size (w_fs w0)) with (size (w_fs w)) in Hsize by done. lia.
Qed.

Lemma X7_witness :
  ∃ lines d,
    printed_since (start example_fs)
      (main CHUNK_SIZE (λ s, s) (λ _, ["data"])
         (mkArgs (str_of "data") false false true (str_of "pipe"))
         (start example_fs)).2
    = banner ["data"] (mkArgs (str_of "data") false false true (str_of "pipe"))
        [PIPE]
      ++ lines
      ++ summary false (length (glob_list example_fs ["data"] true), d).
Proof.
  destruct (X7_summary_counts CHUNK_SIZE (λ s, s) (λ _, ["data"])
              (mkArgs (str_of "data") false false true (str_of "pipe"))
              (start example_fs) eq_refl) as (lines & d & Hout & _).
  exists lines, d. exact Hout.
Defined.

(** ** What the walk prints *)

Lemma count_lines_app kind l1 l2 :
  count_lines kind (l1 ++ l2) = (count_lines kind l1 + count_lines kind l2)%nat.
Proof. unfold count_lines. by rewrite List.filter_app, length_app. Qed.

Section Report.

Context (chunk_size : positive) (delimiter : str) (dry_run verbose : bool).

Local Abbreviation body := (loop_body chunk_size delimiter dry_run verbose).

(** One turn of the loop in verbose mode prints one line that tells what
    became of the candidate, a "deleted" line exactly when it counts a
    deletion; a turn that is neither verbose nor a dry run prints nothing
    on standard output. *)
Lemma loop_body_report file_path w :
  let lines := printed_since w (body file_path w).2 in
  (verbose = true → count_lines per_file_line lines = 1%nat)
  ∧ (verbose = true →
     (count_lines deleted_line lines + files_deleted w)%nat
     = files_deleted (body file_path w).2)
  ∧ (verbose = false → dry_run = false → List.filter on_stdout lines = []).
Proof.
  intros lines. subst lines.
  remember (body file_path w) as r eqn:Hr. revert Hr.
  unfold loop_body, process_file, bind, try_except, Exception.
  unfold incr_files_checked at 1.
  set (w0 := mkWorld _ _ _ _ _).
  destruct (is_empty_csv_frame chunk_size w0 file_path delimiter)
    as (lines0 & Hw1 & Hlines0).
  destruct (is_empty_csv chunk_size file_path delimiter w0) as [v w1].
  simpl in Hw1, Hlines0. subst w1.
  assert (∀ tail w',
            w_out w' = (w_out w ++ lines0) ++ tail →
            printed_since w w' = lines0 ++ tail) as Hsince.
  { intros tail w' Hout. apply printed_since_app. by rewrite Hout, app_assoc. }
  destruct v as [[|]|e].
  - destruct Hlines0 as [-> | [? _]]; [|done].
    destruct dry_run.
    + intros ->. simpl.
      rewrite (Hsince [(stdout, WouldDelete file_path)]) by done.
      split_and!; done.
    + unfold os_remove. simpl.
      destruct (w_fs w !! file_path) as [[[|c] r' [|]]|]; simpl.
      * intros ->. simpl.
        rewrite (Hsince [(stderr, ErrorProcessing file_path
                                    (OSError EISDIR file_path))]) by done.
        split_and!; done.
      * intros ->. simpl.
        rewrite (Hsince [(stderr, ErrorProcessing file_path
                                    (OSError EISDIR file_path))]) by done.
        split_and!; done.
      * destruct verbose; simpl; intros ->; simpl.
        -- rewrite (Hsince [(stdout, Deleted file_path)]) by done.
           split_and!; done.
        -- rewrite (Hsince []) by (simpl; by rewrite !app_nil_r).
           split_and!; done.
      * intros ->. simpl.
        rewrite (Hsince [(stderr, ErrorProcessing file_path
                                    (OSError EACCES file_path))]) by done.
        split_and!; done.
      * intros ->. simpl.
        rewrite (Hsince [(stderr, ErrorProcessing file_path
                                    (OSError ENOENT file_path))]) by done.
        split_and!; done.
  - destruct verbose; simpl; intros ->; simpl.
    + rewrite (Hsince [(stdout, Keeping file_path)]) by done.
      destruct Hlines0 as [-> | [_ [e ->]]]; split_and!; done.
    + rewrite (Hsince []) by (simpl; by rewrite !app_nil_r).
      destruct Hlines0 as [-> | [_ [e ->]]]; split_and!; done.
  - destruct Hlines0 as [-> | [? _]]; [|done].
    intros ->. simpl.
    rewrite (Hsince [(stderr, ErrorProcessing file_path e)]) by done.
    split_and!; done.
Qed.

Lemma for_each_report csv_files : ∀ w,
  let lines := printed_since w (for_each csv_files body w).2 in
  (verbose = true → count_lines per_file_line lines = length csv_files)
  ∧ (verbose = true →
     (count_lines deleted_line lines + files_deleted w)%nat
     = files_deleted (for_each csv_files body w).2)
  ∧ (verbose = false → dry_run = false → List.filter on_stdout lines = []).
Proof.
  induction csv_files as [|p l IH]; intros w.
  - simpl. unfold printed_since. rewrite drop_all. done.
  - intros lines. subst lines. rewrite for_each_cons.
    destruct (loop_body_report p w) as (H1 & H2 & H3).
    destruct (loop_body_spec chunk_size delimiter dry_run verbose p w)
      as (lines1 & w1 & Hp & _ & Hout1 & _).
    rewrite Hp in H1, H2, H3 |- *. simpl in H1, H2, H3 |- *.
    destruct (for_each_out chunk_size delimiter dry_run verbose l w1)
      as [lines2 Hout2].
    destruct (IH w1) as (IH1 & IH2 & IH3).
    rewrite (printed_since_trans w w1 _ lines1 lines2) by done.
    rewrite (printed_since_app w w1 lines1) in H1, H2, H3 by done.
    rewrite !count_lines_app, List.filter_app.
    split_and!.
    + intros Hv. rewrite H1, IH1 by done. done.
    + intros Hv. rewrite <- IH2, <- H2 by done. lia.
    + intros Hv Hd. by rewrite H3, IH3.
Qed.

End Report.

Lemma count_lines_zero kind lines l :
  count_lines kind lines = 0%nat → l ∈ lines → kind l = false.
Proof.
  unfold count_lines. intros Hz Hin.
  destruct (kind l) eqn:Hk; [|done].
  assert (In l (List.filter kind lines)) as Hf.
  { apply List.filter_In. split; [by apply list_elem_of_In|done]. }
  destruct (List.filter kind lines); [done|discriminate Hz].
Qed.

Lemma omap_per_file_path_none lines :
  count_lines per_file_line lines = 0%nat → omap per_file_path lines = [].
Proof.
  induction lines as [|l lines IH]; [done|].
  unfold count_lines. simpl.
  destruct l as [[|] []]; simpl; try done; apply IH.
Qed.

Section PerCandidate.

Context (chunk_size : positive) (delimiter : str) (dry_run : bool).

Local Abbreviation body := (loop_body chunk_size delimiter dry_run true).

(** In verbose mode the one line a turn of the loop prints about the
    candidate names the candidate; it is a "deleted" line exactly when the
    turn has removed the candidate. *)
Lemma loop_body_names_the_candidate file_path w :
  let w' := (body file_path w).2 in
  omap per_file_path (printed_since w w') = [file_path]
  ∧ ∀ q, (stdout, Deleted q) ∈ printed_since w w'
         ↔ q = file_path ∧ w_fs w' !! q = None ∧ is_Some (w_fs w !! q).
Proof.
  intros w'. subst w'.
  destruct (loop_body_report chunk_size delimiter dry_run true file_path w)
    as (Hone & Hdel & _).
  specialize (Hone eq_refl). specialize (Hdel eq_refl).
  destruct (loop_body_spec chunk_size delimiter dry_run true file_path w)
    as (lines & w1 & Hp & _ & Hout & Hcase).
  rewrite Hp in Hone, Hdel |- *. simpl in Hone, Hdel |- *.
  rewrite (printed_since_app w w1 lines) in Hone, Hdel |- * by done.
  destruct Hcase as [(_ & _ & (c & r & Hfile) & Hfs & _ & _ & ->)
                    | (Hfs & Hd & _ & Hkeep)].
  - split; [done|]. intros q. rewrite list_elem_of_singleton. split.
    + intros [= ->]. rewrite Hfs, lookup_delete_eq, Hfile. eauto.
    + by intros (-> & _).
  - assert (count_lines deleted_line lines = 0%nat) as Hnone by lia.
    split.
    + destruct Hkeep as [(_ & _ & ->) | [(_ & _ & e & _ & ->)
                        | [(_ & warning & _ & ->) | (e & _ & ->)]]];
        try done.
      rewrite count_lines_app in Hone.
      change (count_lines per_file_line [(stdout, Keeping file_path)])
        with 1%nat in Hone.
      rewrite omap_app, omap_per_file_path_none by lia.
      done.
    + intros q. split.
      * intros Hin. by apply (count_lines_zero _ _ _ Hnone) in Hin.
      * intros (-> & Hgone & [i Hi]). rewrite Hfs, Hi in Hgone. done.
Qed.

Lemma for_each_names_the_candidates csv_files : ∀ w,
  let w' := (for_each csv_files body w).2 in
  omap per_file_path (printed_since w w') = csv_files
  ∧ ∀ q, (stdout, Deleted q) ∈ printed_since w w'
         ↔ w_fs w' !! q = None ∧ is_Some (w_fs w !! q).
Proof.
  induction csv_files as [|p l IH]; intros w.
  - simpl. unfold printed_since. rewrite drop_all. split; [done|].
    intros q. split.
    + intros Hin. by apply elem_of_nil in Hin.
    + intros [Hn [i Hi]]. by rewrite Hi in Hn.
  - intros w'. subst w'. rewrite for_each_cons.
    destruct (loop_body_names_the_candidate p w) as (Hpath & Hdel).
    destruct (loop_body_spec chunk_size delimiter dry_run true p w)
      as (lines1 & w1 & Hp & _ & Hout1 & Hcase).
    rewrite Hp in Hpath, Hdel |- *. simpl in Hpath, Hdel |- *.
    destruct (for_each_out chunk_size delimiter dry_run true l w1)
      as [lines2 Hout2].
    destruct (IH w1) as (IHpath & IHdel).
    pose proof (for_each_removed chunk_size delimiter dry_run true l w1)
      as Hrest.
    rewrite (printed_since_trans w w1 _ lines1 lines2) by done.
    rewrite (printed_since_app w w1 lines1) in Hpath, Hdel by done.
    split.
    { by rewrite omap_app, Hpath, IHpath. }
    assert (∀ q, w_fs w1 !! q = w_fs w !! q
                 ∨ (w_fs w1 !! q = None ∧ q = p)) as Hstep.
    { intros q.
      destruct Hcase as [(_ & _ & _ & -> & _) | (-> & _)]; [|by left].
      destruct (decide (p = q)) as [<- | Hne].
      - right. by rewrite lookup_delete_eq.
      - left. by rewrite lookup_delete_ne. }
    intros q. rewrite elem_of_app, Hdel, IHdel. split.
    + intros [(-> & Hgone & Hsome) | (Hgone & Hsome)].
      * split; [|done].
        destruct (Hrest p) as [-> | (-> & _)]; done.
      * split; [done|].
        destruct (Hstep q) as [<- | (Hn & _)]; [done|].
        rewrite Hn in Hsome. by destruct Hsome.
    + intros (Hgone & Hsome).
      destruct (Hstep q) as [Hsame | (Hn & ->)].
      * right. by rewrite Hsame.
      * left. done.
Qed.

End PerCandidate.

(** X5.  In verbose mode the walk over a directory prints, for each
    candidate of the scan and in the order of the scan, exactly one line
    that tells what became of it (deleted, would delete, keeping, or
    error) and names it.  A "deleted" line names a path exactly when the
    run has removed that entry, and there are as many of them as the
    number of deletions returned. *)
Theorem X5_verbose_accounts_for_every_candidate
    (chunk_size : positive) (directory_path : path) (delimiter : str)
    (dry_run recursive : bool) (w : world) :
  is_directory (w_fs w) directory_path = true →
  let csv_files := glob_list (w_fs w) directory_path recursive in
  let r := cleanup_directory chunk_size directory_path delimiter
             dry_run true recursive w in
  let lines := printed_since w r.2 in
  omap per_file_path lines = csv_files
  ∧ (∀ q, (stdout, Deleted q) ∈ lines
          ↔ w_fs r.2 !! q = None ∧ is_Some (w_fs w !! q))
  ∧ ∃ d, r.1 = Return (length csv_files, d)
         ∧ count_lines per_file_line lines = length csv_files
         ∧ count_lines deleted_line lines = d.
Proof.
  intros Hdir csv_files r lines. subst lines r.
  rewrite cleanup_directory_valid by done. simpl. fold csv_files.
  set (w0 := before_loop directory_path true recursive w).
  destruct (for_each_report chunk_size delimiter dry_run true csv_files w0)
    as (H1 & H2 & _).
  destruct (for_each_names_the_candidates chunk_size delimiter dry_run
              csv_files w0) as (Hpath & Hdel).
  pose proof (for_each_files_checked chunk_size delimiter dry_run true
                csv_files w0) as Hc.
  destruct (for_each_out chunk_size delimiter dry_run true csv_files w0)
    as [lines Hout].
  rewrite (printed_since_trans w w0 _
             [(stdout, FoundCsvFiles (length csv_files) directory_path recursive)]
             lines) by done.
  split; [|split].
  - by rewrite omap_app, Hpath.
  - intros q. rewrite elem_of_app, Hdel. split.
    + intros [Hin | ?]; [|done].
      apply list_elem_of_singleton in Hin. discriminate Hin.
    + auto.
  - eexists. split; [by rewrite Hc|].
    rewrite !count_lines_app, H1 by done.
    split; [done|]. rewrite <- H2 by done. simpl. lia.
Qed.

Lemma X5_witness :
  omap per_file_path
    (printed_since (start example_fs)
       (cleanup_directory CHUNK_SIZE ["data"] [COMMA] false true true
          (start example_fs)).2)
  = glob_list example_fs ["data"] true.
Proof.
  destruct (X5_verbose_accounts_for_every_candidate CHUNK_SIZE ["data"] [COMMA]
              false true (start example_fs) eq_refl) as (Hpaths & _).
  exact Hpaths.
Defined.

(** X8.  A run that is neither verbose nor a dry run walks in silence:
    [cleanup_directory] prints nothing on standard output, whatever it
    finds, keeps, removes or fails on. *)
Theorem X8_quiet_run_prints_nothing_on_stdout
    (chunk_size : positive) (directory_path : path) (delimiter : str)
    (recursive : bool) (w : world) :
  List.filter on_stdout
    (printed_since w
       (cleanup_directory chunk_size directory_path delimiter
          false false recursive w).2) = [].
Proof.
  destruct (is_directory (w_fs w) directory_path) eqn:Hdir.
  2:{ rewrite cleanup_directory_invalid by done. simpl.
      unfold printed_since. by rewrite drop_all. }
  rewrite cleanup_directory_valid by done. simpl.
  set (csv_files := glob_list (w_fs w) directory_path recursive).
  set (w0 := before_loop directory_path false recursive w).
  destruct (for_each_report chunk_size delimiter false false csv_files w0)
    as (_ & _ & H3).
  replace (printed_since w (for_each csv_files
             (loop_body chunk_size delimiter false false) w0).2)
    with (printed_since w0 (for_each csv_files
             (loop_body chunk_size delimiter false false) w0).2) by done.
  by apply H3.
Qed.

(** ** The classifier and the files it cannot open *)

(** X9.  [is_empty_csv] only reads: whatever the path and the delimiter,
    and whether it returns or raises, the file system and the walker's
    counters are after the call what they were before, and the call has
    printed nothing, or, when it returns false, one warning for the path on
    the error stream. *)
Theorem X9_classifier_only_reads
    (chunk_size : positive) (file_path : path) (delimiter : str) (w : world) :
  let r := is_empty_csv chunk_size file_path delimiter w in
  w_fs r.2 = w_fs w
  ∧ files_checked r.2 = files_checked w
  ∧ files_deleted r.2 = files_deleted w
  ∧ counter_log r.2 = counter_log w
  ∧ (printed_since w r.2 = []
     ∨ r.1 = Return false
       ∧ ∃ e, printed_since w r.2
              = [(stderr, WarningCouldNotProcess file_path e)]).
Proof.
  intros r. subst r.
  destruct (is_empty_csv_frame chunk_size w file_path delimiter)
    as (lines & -> & Hlines).
  simpl. split_and!; try done.
  rewrite (printed_since_app w (emit w lines) lines) by done.
  destruct Hlines as [-> | (Hf & e & ->)]; eauto.
Qed.

Lemma is_empty_csv_unopenable chunk_size file_path delimiter w e :
  open_inode chunk_size file_path (w_fs w !! file_path) = Raise e →
  (∃ code, e = OSError code file_path)
  ∧ is_empty_csv chunk_size file_path delimiter w = (Raise e, w).
Proof.
  unfold is_empty_csv, read_header_and_row, try_except, bind, open_text.
  unfold open_inode at 1.
  destruct (w_fs w !! file_path) as [[[|c] [|] u]|] eqn:Hfs;
    intros He; simplify_eq; unfold open_inode; rewrite ?Hfs; eauto.
Qed.

(** X10.  The classifier does not catch the error of [open].  For a
    candidate that is missing, is a directory (a directory may well have a
    name that ends in [.csv]) or may not be read, [is_empty_csv] raises the
    [OSError] and changes nothing; the walker counts the candidate, prints
    one "Error processing" line for it and leaves the file system and the
    deletion counter alone. *)
Theorem X10_error_of_open_is_reported_by_the_walker
    (chunk_size : positive) (delimiter : str) (dry_run verbose : bool)
    (file_path : path) (w : world) :
  (∀ c u, w_fs w !! file_path ≠ Some (mkInode (Regular c) true u)) →
  let code := match w_fs w !! file_path with
              | None => ENOENT
              | Some (mkInode Directory _ _) => EISDIR
              | Some (mkInode (Regular _) _ _) => EACCES
              end in
  is_empty_csv chunk_size file_path delimiter w
  = (Raise (OSError code file_path), w)
  ∧ loop_body chunk_size delimiter dry_run verbose file_path w
    = (Return tt,
       emit (incr_files_checked w).2
         [(stderr, ErrorProcessing file_path (OSError code file_path))]).
Proof.
  intros Hno code.
  assert (open_inode chunk_size file_path (w_fs w !! file_path)
          = Raise (OSError code file_path)) as Hopen.
  { subst code. unfold open_inode.
    destruct (w_fs w !! file_path) as [[[|c] [|] u]|] eqn:Hfs; try done.
    by destruct (Hno c u). }
  split.
  { by apply is_empty_csv_unopenable. }
  unfold loop_body, process_file, bind, try_except, Exception.
  unfold incr_files_checked at 1.
  set (w0 := mkWorld _ _ _ _ _).
  destruct (is_empty_csv_unopenable chunk_size file_path delimiter w0
              (OSError code file_path) Hopen) as [_ ->].
  done.
Qed.

Lemma X10_witness :
  loop_body CHUNK_SIZE [COMMA] false false ["data"; "x.csv"] (start example_fs)
  = (Return tt,
     emit (incr_files_checked (start example_fs)).2
       [(stderr, ErrorProcessing ["data"; "x.csv"]
                   (OSError EISDIR ["data"; "x.csv"]))]).
Proof.
  destruct (X10_error_of_open_is_reported_by_the_walker CHUNK_SIZE [COMMA]
              false false ["data"; "x.csv"] (start example_fs)) as [_ Hloop].
  - intros c u. vm_compute. discriminate.
  - exact Hloop.
Defined.

(** ** A second run, whatever the first one met *)

Lemma os_remove_raises file_path w e :
  (os_remove file_path w).1 = Raise e → ¬ unlinkable_file (w_fs w !! file_path).
Proof.
  unfold os_remove, unlinkable_file.
  destruct (w_fs w !! file_path) as [[[|c] r [|]]|]; simpl; try done;
    intros _ (c' & r' & [=]).
Qed.

Section SecondRun.

Context (chunk_size : positive) (delimiter : str) (verbose : bool).

Local Abbreviation body := (loop_body chunk_size delimiter false verbose).
Local Abbreviation classify p w := (is_empty_csv chunk_size p delimiter w).1.

(** After the loop no candidate is left that it would still remove. *)
Lemma for_each_leaves_nothing_to_remove csv_files : ∀ w p,
  p ∈ csv_files →
  let w' := (for_each csv_files body w).2 in
  ¬ (classify p w' = Return true ∧ unlinkable_file (w_fs w' !! p)).
Proof.
  induction csv_files as [|q l IH]; intros w p Hp; [by apply elem_of_nil in Hp|].
  intros w'. subst w'. rewrite for_each_cons.
  apply elem_of_cons in Hp as [-> | Hp]; [|by apply IH].
  pose proof (for_each_shrunk chunk_size delimiter verbose l (body q w).2 q)
    as Hrest.
  destruct (loop_body_spec chunk_size delimiter false verbose q w)
    as (lines & w1 & Hq & _ & _ & Hcase).
  rewrite Hq in Hrest |- *. simpl in Hrest |- *.
  set (w' := (for_each l body w1).2) in *.
  intros [Hv (c & r & Hfile)].
  destruct Hrest as [Hsame | [Hgone _]]; [|by rewrite Hgone in Hfile].
  destruct Hcase as [(_ & _ & _ & Hfs & _) | (Hfs & _ & _ & Hkeep)].
  { by rewrite Hsame, Hfs, lookup_delete_eq in Hfile. }
  assert (classify q w = Return true) as Hvw.
  { rewrite <- Hv. apply is_empty_csv_local. by rewrite Hsame, Hfs. }
  destruct Hkeep as [(_ & ? & _) | [(_ & _ & e & He & _)
                    | [(Hf & _) | (e & He & _)]]].
  - done.
  - apply os_remove_raises in He. apply He. exists c, r.
    by rewrite <- Hfs, <- Hsame.
  - by rewrite Hvw in Hf.
  - by rewrite Hvw in He.
Qed.

(** A loop that finds nothing it would remove changes nothing. *)
Lemma for_each_nothing_to_remove csv_files : ∀ w,
  (∀ p, p ∈ csv_files →
        ¬ (classify p w = Return true ∧ unlinkable_file (w_fs w !! p))) →
  let w' := (for_each csv_files body w).2 in
  w_fs w' = w_fs w ∧ files_deleted w' = files_deleted w.
Proof.
  induction csv_files as [|q l IH]; intros w Hall; [done|].
  intros w'. subst w'. rewrite for_each_cons.
  destruct (loop_body_spec chunk_size delimiter false verbose q w)
    as (lines1 & w1 & -> & _ & _ & Hcase). simpl.
  destruct Hcase as [(_ & Hv & Hfile & _) | (Hfs & Hd & _)].
  { destruct (Hall q); [apply list_elem_of_here|done]. }
  destruct (IH w1) as [-> ->]; [|done].
  intros p Hp.
  rewrite (is_empty_csv_local chunk_size w1 w p delimiter) by (by rewrite Hfs).
  rewrite Hfs. apply Hall. by apply list_elem_of_further.
Qed.

End SecondRun.

(** X12.  A second run of [cleanup_directory] right after a first one, not
    in dry-run mode, removes nothing and returns 0 deletions, whatever the
    first run met: files it failed to remove or to read are failed on
    again, not removed. *)
Theorem X12_second_run_is_idle_even_after_failures
    (chunk_size : positive) (directory_path : path) (delimiter : str)
    (verbose recursive : bool) (w : world) :
  let r1 := cleanup_directory chunk_size directory_path delimiter
              false verbose recursive w in
  let r2 := cleanup_directory chunk_size directory_path delimiter
              false verbose recursive r1.2 in
  is_directory (w_fs w) directory_path = true →
  r2.1 = Return (length (glob_list (w_fs r1.2) directory_path recursive), 0%nat)
  ∧ w_fs r2.2 = w_fs r1.2.
Proof.
  intros r1 r2 Hdir. subst r2 r1.
  rewrite (cleanup_directory_valid chunk_size directory_path delimiter
             false verbose recursive w Hdir).
  simpl.
  set (w0 := before_loop directory_path verbose recursive w).
  set (files0 := glob_list (w_fs w) directory_path recursive).
  destruct (before_loop_facts directory_path verbose recursive w)
    as (Hfs0 & _). fold w0 in Hfs0.
  pose proof (for_each_shrunk chunk_size delimiter verbose files0 w0) as Hshrunk.
  pose proof (for_each_leaves_nothing_to_remove chunk_size delimiter verbose
                files0 w0) as Hleft.
  set (w1 := (for_each files0 _ w0).2) in *.
  rewrite Hfs0 in Hshrunk.
  assert (is_directory (w_fs w1) directory_path = true) as Hdir1.
  { by rewrite (shrunk_is_directory (w_fs w) (w_fs w1)). }
  rewrite (cleanup_directory_valid chunk_size directory_path delimiter
             false verbose recursive w1 Hdir1).
  simpl.
  set (w2 := before_loop directory_path verbose recursive w1).
  destruct (before_loop_facts directory_path verbose recursive w1)
    as (Hfs2 & Hc2 & Hd2 & _). fold w2 in Hfs2, Hc2, Hd2.
  set (files1 := glob_list (w_fs w1) directory_path recursive).
  destruct (for_each_nothing_to_remove chunk_size delimiter verbose files1 w2)
    as [Hfs3 Hd3].
  { intros p Hp.
    destruct (shrunk_glob_list _ _ _ _ _ Hshrunk Hp) as (Hp0 & _).
    rewrite (is_empty_csv_local chunk_size w2 w1 p delimiter)
      by (by rewrite Hfs2).
    rewrite Hfs2. by apply Hleft. }
  pose proof (for_each_files_checked chunk_size delimiter false verbose files1 w2)
    as Hc3.
  split.
  - by rewrite Hc3, Hc2, Hd3, Hd2.
  - by rewrite Hfs3.
Qed.

Lemma X12_witness :
  let r1 := cleanup_directory CHUNK_SIZE ["data"] [COMMA] false false true
              (start example_fs) in
  let r2 := cleanup_directory CHUNK_SIZE ["data"] [COMMA] false false true r1.2 in
  w_fs r2.2 = w_fs r1.2.
Proof.
  intros r1 r2.
  destruct (X12_second_run_is_idle_even_after_failures CHUNK_SIZE ["data"]
              [COMMA] false true (start example_fs) eq_refl) as [_ Hfs].
  exact Hfs.
Defined.

(** ** A dry run as a preview *)

Section Preview.

Context (chunk_size : positive) (delimiter : str) (dry_run verbose : bool).

Local Abbreviation body := (loop_body chunk_size delimiter dry_run verbose).
Local Abbreviation classify p w := (is_empty_csv chunk_size p delimiter w).1.

(** A "would delete" notice is only printed in a dry run, for the candidate
    at hand, when it is classified empty. *)
Lemma loop_body_would_delete file_path w q :
  (stdout, WouldDelete q) ∈ printed_since w (body file_path w).2 →
  q = file_path ∧ dry_run = true ∧ classify file_path w = Return true.
Proof.
  remember (body file_path w) as r eqn:Hr. revert Hr.
  unfold loop_body, process_file, bind, try_except, Exception.
  unfold incr_files_checked at 1.
  set (w0 := mkWorld _ _ _ _ _).
  assert (classify file_path w0 = classify file_path w) as Hv
    by (by apply is_empty_csv_local).
  destruct (is_empty_csv_frame chunk_size w0 file_path delimiter)
    as (lines0 & Hw1 & Hlines0).
  destruct (is_empty_csv chunk_size file_path delimiter w0) as [v w1].
  simpl in Hv, Hw1, Hlines0. subst w1.
  assert (∀ tail w',
            w_out w' = (w_out w ++ lines0) ++ tail →
            (stdout, WouldDelete q) ∈ printed_since w w' →
            (stdout, WouldDelete q) ∈ tail) as Hsince.
  { intros tail w' Hout.
    rewrite (printed_since_app w w' (lines0 ++ tail))
      by (by rewrite Hout, app_assoc).
    intros [Hin | Hin]%elem_of_app; [|done].
    destruct Hlines0 as [-> | (_ & e & ->)].
    - by apply elem_of_nil in Hin.
    - by apply list_elem_of_singleton in Hin. }
  assert (∀ l : stream * message,
            (stdout, WouldDelete q) ∈ [l] → l = (stdout, WouldDelete q)) as Hone.
  { intros l Hin. by apply list_elem_of_singleton in Hin. }
  destruct v as [[|]|e].
  - destruct dry_run.
    + intros -> Hin. apply (Hsince [(stdout, WouldDelete file_path)]) in Hin;
        [|done].
      apply Hone in Hin. by simplify_eq.
    + unfold os_remove. simpl.
      destruct (w_fs w !! file_path) as [[[|c] r' [|]]|]; simpl.
      * intros -> Hin. eapply (Hsince [_]) in Hin; [|done].
        by apply Hone in Hin.
      * intros -> Hin. eapply (Hsince [_]) in Hin; [|done].
        by apply Hone in Hin.
      * destruct verbose; simpl; intros -> Hin.
        -- eapply (Hsince [_]) in Hin; [|done]. by apply Hone in Hin.
        -- eapply (Hsince []) in Hin; [|simpl; by rewrite !app_nil_r].
           by apply elem_of_nil in Hin.
      * intros -> Hin. eapply (Hsince [_]) in Hin; [|done].
        by apply Hone in Hin.
      * intros -> Hin. eapply (Hsince [_]) in Hin; [|done].
        by apply Hone in Hin.
  - destruct verbose; simpl; intros -> Hin.
    + eapply (Hsince [_]) in Hin; [|done]. by apply Hone in Hin.
    + eapply (Hsince []) in Hin; [|simpl; by rewrite !app_nil_r].
      by apply elem_of_nil in Hin.
  - intros -> Hin. eapply (Hsince [_]) in Hin; [|done].
    by apply Hone in Hin.
Qed.

End Preview.

Lemma for_each_would_delete chunk_size delimiter verbose csv_files : ∀ w q,
  (stdout, WouldDelete q)
    ∈ printed_since w
        (for_each csv_files (loop_body chunk_size delimiter true verbose) w).2 →
  q ∈ csv_files ∧ (is_empty_csv chunk_size q delimiter w).1 = Return true.
Proof.
  induction csv_files as [|p l IH]; intros w q.
  - simpl. unfold printed_since. rewrite drop_all. intros Hin.
    by apply elem_of_nil in Hin.
  - rewrite for_each_cons.
    pose proof (loop_body_would_delete chunk_size delimiter true verbose p w q)
      as Hstep.
    destruct (loop_body_spec chunk_size delimiter true verbose p w)
      as (lines1 & w1 & Hp & _ & Hout1 & Hcase).
    rewrite Hp in Hstep |- *. simpl in Hstep |- *.
    destruct (for_each_out chunk_size delimiter true verbose l w1)
      as [lines2 Hout2].
    rewrite (printed_since_trans w w1 _ lines1 lines2) by done.
    rewrite (printed_since_app w w1 lines1) in Hstep by done.
    intros [Hin | Hin]%elem_of_app.
    + destruct (Hstep Hin) as (-> & _ & Hv). split; [apply list_elem_of_here|done].
    + destruct (IH w1 q Hin) as [Hq Hv].
      split; [by apply list_elem_of_further|].
      rewrite <- Hv. apply is_empty_csv_local.
      destruct Hcase as [(? & _) | (-> & _)]; done.
Qed.

(** X13.  A dry run is a faithful preview.  On a directory it prints a
    "would delete" notice for a path exactly when the path is a candidate
    classified empty; and every entry that a run which is not a dry run
    removes from the same state is among the paths so announced. *)
Theorem X13_dry_run_previews_the_real_run
    (chunk_size : positive) (directory_path : path) (delimiter : str)
    (verbose recursive : bool) (w : world) :
  is_directory (w_fs w) directory_path = true →
  let dry := cleanup_directory chunk_size directory_path delimiter
               true verbose recursive w in
  let real := cleanup_directory chunk_size directory_path delimiter
                false verbose recursive w in
  (∀ q, (stdout, WouldDelete q) ∈ printed_since w dry.2
        ↔ q ∈ glob_list (w_fs w) directory_path recursive
          ∧ (is_empty_csv chunk_size q delimiter w).1 = Return true)
  ∧ (∀ q, w_fs real.2 !! q ≠ w_fs w !! q →
          (stdout, WouldDelete q) ∈ printed_since w dry.2).
Proof.
  intros Hdir dry real. subst dry real.
  rewrite !cleanup_directory_valid by done. simpl.
  set (csv_files := glob_list (w_fs w) directory_path recursive).
  set (w0 := before_loop directory_path verbose recursive w).
  destruct (before_loop_facts directory_path verbose recursive w)
    as (Hfs0 & _ & _ & _ & lines0 & Hout0 & _). fold w0 in Hfs0, Hout0.
  assert (∀ p, (is_empty_csv chunk_size p delimiter w0).1
               = (is_empty_csv chunk_size p delimiter w).1) as Hlocal.
  { intros p. apply is_empty_csv_local. by rewrite Hfs0. }
  assert (∀ q, (stdout, WouldDelete q) ∉ lines0) as Hfound.
  { intros q. revert Hout0. subst w0.
    unfold before_loop, init_counters, when, print, ret, emit.
    destruct verbose; simpl; intros Heq.
    - apply app_inv_head in Heq. subst lines0.
      rewrite list_elem_of_singleton. by intros [=].
    - rewrite <- (app_nil_r (w_out w)) in Heq at 1.
      apply app_inv_head in Heq. subst lines0. apply not_elem_of_nil. }
  destruct (for_each_out chunk_size delimiter true verbose csv_files w0)
    as [lines Hout].
  destruct (for_each_dry_run chunk_size delimiter verbose csv_files w0)
    as (_ & _ & Hnotice).
  assert (∀ q, (stdout, WouldDelete q)
                 ∈ printed_since w
                     (for_each csv_files
                        (loop_body chunk_size delimiter true verbose) w0).2
               ↔ q ∈ csv_files
                 ∧ (is_empty_csv chunk_size q delimiter w).1 = Return true)
    as Hiff.
  { intros q.
    rewrite (printed_since_trans w w0 _ lines0 lines) by done.
    rewrite elem_of_app. split.
    - intros [Hin | Hin]; [by destruct (Hfound q)|].
      destruct (for_each_would_delete _ _ _ _ _ _ Hin) as [Hq Hv].
      by rewrite Hlocal in Hv.
    - intros [Hq Hv]. right. apply Hnotice; [done|]. by rewrite Hlocal. }
  split; [done|].
  intros q Hq. apply Hiff.
  destruct (for_each_removed chunk_size delimiter false verbose csv_files w0 q)
    as [Hsame | (_ & _ & Hin & Hv & _)].
  - by rewrite Hsame, Hfs0 in Hq.
  - by rewrite Hlocal in Hv.
Qed.

Lemma X13_witness :
  (stdout, WouldDelete ["data"; "a.csv"])
    ∈ printed_since (start example_fs)
        (cleanup_directory CHUNK_SIZE ["data"] [COMMA] true false false
           (start example_fs)).2.
Proof.
  destruct (X13_dry_run_previews_the_real_run CHUNK_SIZE ["data"] [COMMA]
              false false (start example_fs) eq_refl) as [_ Hreal].
  apply Hreal. vm_compute. discriminate.
Defined.

(** ** More on what counts as a record *)

Section Lines.

Context (d : N).

(** The lines of a text that starts with characters that are no
    terminators: these characters open its first line. *)
Lemma split_lines_prefix h t :
  Forall line_char h →
  TextIO.split_lines (h ++ t)
  = match TextIO.split_lines t with
    | (l :: ls, tl) => ((h ++ l) :: ls, tl)
    | ([], tl) => ([], h ++ tl)
    end.
Proof.
  induction 1 as [|c h [Hlf%N.eqb_neq Hcr%N.eqb_neq] _ IH].
  - simpl. by destruct (TextIO.split_lines t) as [[|l ls] tl].
  - simpl. rewrite Hlf, Hcr, IH.
    by destruct (TextIO.split_lines t) as [[|l ls] tl].
Qed.

Lemma split_lines_nothing t : TextIO.split_lines t = ([], []) → t = [].
Proof.
  destruct t as [|c t]; [done|]. simpl.
  destruct (c =? LF).
  { by destruct (TextIO.split_lines t). }
  destruct (c =? CR).
  - destruct t as [|c2 t]; [done|].
    destruct (c2 =? LF).
    + by destruct (TextIO.split_lines t).
    + by destruct (TextIO.split_lines (c2 :: t)).
  - by destruct (TextIO.split_lines t) as [[|l ls] tl].
Qed.

Lemma all_lines_nonempty t : t ≠ [] → TextIO.all_lines t ≠ [].
Proof.
  intros Ht. unfold TextIO.all_lines.
  destruct (TextIO.split_lines t) as [[|l ls] [|c tl]] eqn:Hs; try done.
  by apply split_lines_nothing in Hs.
Qed.

(** The end-of-line mark never makes the automaton raise, and leaves it at
    the start of a record or inside an open quoted field. *)
Lemma parse_process_char_EOL p :
  ∃ p', Csv.parse_process_char d p Csv.EOL = Return p'
        ∧ (Csv.state p' = Csv.START_RECORD
           ∨ Csv.state p' = Csv.IN_QUOTED_FIELD)
        ∧ Csv.field_len p' ≤ Csv.field_len p.
Proof.
  unfold Csv.parse_process_char, Csv.start_field.
  destruct (Csv.state p) eqn:Hp; eexists; (split; [done|]); simpl;
    rewrite ?Hp; (split; [auto|lia]).
Qed.

Lemma process_chars_end_state l : ∀ p p',
  Csv.process_chars d p l = Return p' →
  Csv.state p' = Csv.START_RECORD ∨ Csv.state p' = Csv.IN_QUOTED_FIELD.
Proof.
  induction l as [|c l IH]; intros p p'; simpl.
  - destruct (parse_process_char_EOL p) as (p1 & -> & Hst & _).
    by intros [= <-].
  - destruct (Csv.parse_process_char d p (Csv.Ch c)); [apply IH|done].
Qed.

(** A terminator character does not make the automaton raise either, as
    long as the field is below the limit. *)
Lemma parse_process_char_newline p c :
  c = LF ∨ c = CR → Csv.field_len p < Csv.field_limit →
  ∃ p', Csv.parse_process_char d p (Csv.Ch c) = Return p'
        ∧ Csv.field_len p' ≤ Csv.field_len p + 1.
Proof.
  intros Hc Hlen.
  assert (Csv.is_newline (Csv.Ch c) = true) as Hnl by (by destruct Hc as [-> | ->]).
  unfold Csv.parse_process_char, Csv.start_field. rewrite Hnl.
  destruct (Csv.state p) eqn:Hp;
    repeat case_match; simplify_eq;
    rewrite ?parse_add_char_below in * by (simpl; lia); simplify_eq;
    eexists; (split; [done|]); simpl; lia.
Qed.

Lemma process_chars_newlines t : ∀ p,
  Forall (λ c, c = LF ∨ c = CR) t →
  Csv.field_len p + N.of_nat (length t) < Csv.field_limit →
  ∃ p', Csv.process_chars d p t = Return p'.
Proof.
  induction t as [|c t IH]; intros p Ht Hlen; simpl in *.
  - destruct (parse_process_char_EOL p) as (p' & -> & _). eauto.
  - apply Forall_cons in Ht as [Hc Ht].
    destruct (parse_process_char_newline p c) as (p1 & -> & Hlen1); [done|lia|].
    apply IH; [done|lia].
Qed.

Lemma process_chars_line h t : ∀ p,
  Forall line_char h → Forall (λ c, c = LF ∨ c = CR) t →
  Csv.state p ≠ Csv.EAT_CRNL →
  Csv.field_len p + N.of_nat (length h) + N.of_nat (length t) < Csv.field_limit →
  ∃ p', Csv.process_chars d p (h ++ t) = Return p'.
Proof.
  induction h as [|c h IH]; intros p Hh Ht Hst Hlen; simpl in *.
  - apply process_chars_newlines; [done|lia].
  - apply Forall_cons in Hh as [Hc Hh].
    destruct (parse_process_char_in_line d p c) as (p1 & -> & Hst1 & Hlen1);
      [done|done|lia|].
    apply IH; [done|done|done|lia].
Qed.

(** One line, whatever ends it, is one record. *)
Lemma records_single_line h t :
  Forall line_char h → line_end t →
  N.of_nat (length h) + 2 < Csv.field_limit →
  ∃ rs, Csv.records d (Line <$> TextIO.all_lines (h ++ t)) = (rs, None)
        ∧ (length rs ≤ 1)%nat.
Proof.
  intros Hh Ht Hlen.
  assert (Forall (λ c, c = LF ∨ c = CR) t ∧ (length t ≤ 2)%nat) as [Hnl Hlt].
  { destruct Ht as [-> | [-> | [-> | ->]]]; split; simpl; try lia;
      repeat first [apply Forall_nil_2 | apply Forall_cons_2]; auto. }
  assert (TextIO.all_lines (h ++ t) = [] ∨ TextIO.all_lines (h ++ t) = [h ++ t])
    as [-> | ->].
  { unfold TextIO.all_lines. rewrite split_lines_prefix by done.
    destruct Ht as [-> | [-> | [-> | ->]]]; simpl.
    - rewrite app_nil_r. destruct h; auto.
    - auto.
    - destruct (h ++ [CR]) eqn:Heq; auto.
    - auto. }
  { exists []. split; [done|simpl; lia]. }
  simpl. unfold Csv.records. simpl.
  destruct (process_chars_line h t Csv.parse_reset) as [p' Hp'];
    [done|done|done|simpl; lia|].
  rewrite Hp'.
  destruct (process_chars_end_state _ _ _ Hp') as [-> | Hq].
  - eexists. split; [done|]. simpl. lia.
  - rewrite Hq, orb_true_r. eexists. split; [done|]. simpl. lia.
Qed.

(** Lines that follow are never passed over: reading them gives a record
    or an exception. *)
Lemma records_from_more ls : ∀ p,
  ls ≠ [] →
  (Csv.records_from d p (Line <$> ls)).1 ≠ []
  ∨ (Csv.records_from d p (Line <$> ls)).2 ≠ None.
Proof.
  induction ls as [|l ls IH]; intros p Hne; [done|]. simpl.
  destruct (Csv.process_chars d p l) as [p'|e] eqn:Hl; [|by right].
  destruct (process_chars_end_state _ _ _ Hl) as [-> | Hq].
  - left. by destruct (Csv.records_from d Csv.parse_reset _).
  - rewrite Hq. destruct ls as [|l' ls]; [|by apply (IH p')].
    simpl. rewrite Hq, orb_true_r. by left.
Qed.

(** Away from quotes a header line is a record of its own. *)
Lemma parse_process_char_unquoted p c :
  line_char c → c ≠ DQUOTE →
  Csv.state p = Csv.START_RECORD ∨ Csv.state p = Csv.START_FIELD
    ∨ Csv.state p = Csv.IN_FIELD →
  Csv.field_len p < Csv.field_limit →
  ∃ p', Csv.parse_process_char d p (Csv.Ch c) = Return p'
        ∧ (Csv.state p' = Csv.START_FIELD ∨ Csv.state p' = Csv.IN_FIELD)
        ∧ Csv.field_len p' ≤ Csv.field_len p + 1.
Proof.
  intros [Hlf%N.eqb_neq Hcr%N.eqb_neq] Hq%N.eqb_neq Hst Hlen.
  unfold Csv.parse_process_char, Csv.start_field, Csv.is_newline, Csv.quotechar.
  rewrite Hlf, Hcr, Hq; simpl.
  destruct Hst as [Hp | [Hp | Hp]]; rewrite Hp;
    repeat case_match; simplify_eq;
    rewrite ?parse_add_char_below in * by (simpl; lia); simplify_eq;
    eexists; (split; [done|]); simpl; rewrite ?Hp; (split; [auto|lia]).
Qed.

Lemma process_chars_unquoted_line h : ∀ p,
  Forall (λ c, line_char c ∧ c ≠ DQUOTE) h →
  Csv.state p = Csv.START_RECORD ∨ Csv.state p = Csv.START_FIELD
    ∨ Csv.state p = Csv.IN_FIELD →
  Csv.field_len p + N.of_nat (length h) < Csv.field_limit →
  ∃ p', Csv.process_chars d p (h ++ [LF]) = Return p'
        ∧ Csv.state p' = Csv.START_RECORD.
Proof.
  induction h as [|c h IH]; intros p Hh Hst Hlen; simpl in *.
  - unfold Csv.parse_process_char, Csv.start_field, Csv.is_newline. simpl.
    destruct Hst as [Hp | [Hp | Hp]]; rewrite Hp; simpl;
      eexists; (split; [done|]); done.
  - apply Forall_cons in Hh as [[Hc Hq] Hh].
    destruct (parse_process_char_unquoted p c) as (p1 & -> & Hst1 & Hlen1);
      [done|done|done|lia|].
    apply IH; [done|auto|lia].
Qed.

(** A field that grows beyond the limit makes the reader raise. *)
Lemma process_chars_overflow h x : ∀ p,
  Forall (plain_char d) h →
  Csv.state p = Csv.START_RECORD ∨ Csv.state p = Csv.START_FIELD
    ∨ Csv.state p = Csv.IN_FIELD →
  Csv.field_len p ≤ Csv.field_limit →
  Csv.field_limit < Csv.field_len p + N.of_nat (length h) →
  Csv.process_chars d p (h ++ x) = Raise (csv_Error FieldLargerThanLimit).
Proof.
  induction h as [|c h IH]; intros p Hh Hst Hle Hlen; simpl in *; [lia|].
  apply Forall_cons in Hh as [(Hlf%N.eqb_neq & Hcr%N.eqb_neq & Hq%N.eqb_neq
                                & Hd%N.eqb_neq) Hh].
  unfold Csv.parse_process_char, Csv.start_field, Csv.is_newline, Csv.quotechar.
  rewrite Hlf, Hcr, Hq, Hd; simpl.
  destruct (N.leb_spec Csv.field_limit (Csv.field_len p)) as [Hfull | Hroom].
  - unfold Csv.parse_add_char.
    destruct Hst as [Hp | [Hp | Hp]]; rewrite Hp; simpl;
      destruct (N.leb_spec Csv.field_limit (Csv.field_len p)); done || lia.
  - destruct Hst as [Hp | [Hp | Hp]]; rewrite Hp; simpl;
      rewrite parse_add_char_below by (simpl; lia); simpl;
      apply IH; simpl; auto; lia.
Qed.

End Lines.

(** Bytes below 128 decode to themselves. *)
Lemma decode_ascii bs :
  Forall (λ b, Byte.to_N b < 128) bs →
  Utf8.decode bs = (Byte.to_N <$> bs, Utf8.Clean).
Proof.
  unfold Utf8.decode.
  induction 1 as [|b bs Hb _ IH]; [done|].
  simpl. unfold Utf8.lead.
  destruct (N.ltb_spec (Byte.to_N b) 128) as [_|]; [|lia].
  by rewrite IH.
Qed.

(** X11.  A file of a single line is classified empty whatever ends the
    line: a line feed, a carriage return, both, or nothing at all, and
    whatever the delimiter. *)
Theorem X11_single_line_is_header_only
    (chunk_size : positive) (w : world) (file_path : path)
    (content : list byte) (u : bool) (d : N) (h t : str) :
  w_fs w !! file_path = Some (mkInode (Regular content) true u) →
  Utf8.decode content = (h ++ t, Utf8.Clean) →
  Forall line_char h → line_end t →
  N.of_nat (length h) + 2 < Csv.field_limit →
  is_empty_csv chunk_size file_path [d] w = (Return true, w).
Proof.
  intros Hfs Hdec Hh Ht Hlen.
  rewrite (is_empty_csv_readable chunk_size w file_path content u d Hfs).
  unfold TextIO.readlines. rewrite Hdec.
  destruct (records_single_line d h t Hh Ht Hlen) as (rs & -> & Hrs).
  destruct rs as [|r1 [|r2 rs]]; simpl in *; first [done | lia].
Qed.

Lemma X11_witness :
  is_empty_csv CHUNK_SIZE ["data"; "sub"; "d.csv"] [COMMA] (start example_fs)
  = (Return true, start example_fs).
Proof.
  apply (X11_single_line_is_header_only CHUNK_SIZE (start example_fs)
           ["data"; "sub"; "d.csv"] (bytes_of "name,age") true COMMA
           (str_of "name,age") []).
  - reflexivity.
  - reflexivity.
  - repeat first [apply Forall_nil_2 | apply Forall_cons_2];
      split; discriminate.
  - by left.
  - vm_compute. reflexivity.
Defined.

(** X14.  Anything after the header line makes the file not empty.  When
    the first line has no quote character and ends in a line feed, and at
    least one more character follows, be it a lone line feed (a blank
    line), [is_empty_csv] returns false. *)
Theorem X14_anything_after_the_header_is_data
    (chunk_size : positive) (w : world) (file_path : path)
    (content : list byte) (u : bool) (d : N) (h rest : str) :
  w_fs w !! file_path = Some (mkInode (Regular content) true u) →
  Utf8.decode content = (h ++ LF :: rest, Utf8.Clean) →
  Forall (λ c, line_char c ∧ c ≠ DQUOTE) h →
  N.of_nat (length h) < Csv.field_limit →
  rest ≠ [] →
  (is_empty_csv chunk_size file_path [d] w).1 = Return false.
Proof.
  intros Hfs Hdec Hh Hlen Hrest.
  rewrite (is_empty_csv_readable chunk_size w file_path content u d Hfs).
  unfold TextIO.readlines. rewrite Hdec.
  assert (Forall line_char h) as Hh'.
  { eapply Forall_impl; [exact Hh|]. by intros c [? _]. }
  assert (TextIO.all_lines (h ++ LF :: rest)
          = (h ++ [LF]) :: TextIO.all_lines rest) as ->.
  { unfold TextIO.all_lines. rewrite split_lines_prefix by done. simpl.
    by destruct (TextIO.split_lines rest) as [ls tl]. }
  unfold Csv.records. simpl.
  destruct (process_chars_unquoted_line d h Csv.parse_reset)
    as (p1 & -> & ->); [done|by left|simpl; lia|].
  pose proof (records_from_more d (TextIO.all_lines rest) Csv.parse_reset
                (all_lines_nonempty rest Hrest)) as Hmore.
  destruct (Csv.records_from d Csv.parse_reset _) as [[|r rs] [e|]];
    simpl in *; try done.
  by destruct Hmore.
Qed.

Lemma X14_witness :
  (is_empty_csv CHUNK_SIZE ["data"; "e.csv"] [COMMA] (start example_fs)).1
  = Return false.
Proof.
  apply (X14_anything_after_the_header_is_data CHUNK_SIZE (start example_fs)
           ["data"; "e.csv"] (bytes_of ("name,age" +:+ nl +:+ "," +:+ nl))
           true COMMA (str_of "name,age") (str_of ("," +:+ nl))).
  - reflexivity.
  - reflexivity.
  - repeat first [apply Forall_nil_2 | apply Forall_cons_2];
      (split; [split|]); discriminate.
  - vm_compute. reflexivity.
  - discriminate.
Defined.

(** X15.  A first line that starts with a field of more characters than
    the reader's field size limit makes the reader raise [csv.Error]; the
    file is then reported in a warning and classified not empty, whatever
    follows the field. *)
Theorem X15_oversized_field_is_reported_and_kept
    (chunk_size : positive) (w : world) (file_path : path)
    (content : list byte) (u : bool) (d : N) (h rest : str) :
  w_fs w !! file_path = Some (mkInode (Regular content) true u) →
  Utf8.decode content = (h ++ rest, Utf8.Clean) →
  Forall (plain_char d) h →
  Csv.field_limit < N.of_nat (length h) →
  is_empty_csv chunk_size file_path [d] w
  = (Return false,
     emit w [(stderr, WarningCouldNotProcess file_path
                        (csv_Error FieldLargerThanLimit))]).
Proof.
  intros Hfs Hdec Hh Hlen.
  rewrite (is_empty_csv_readable chunk_size w file_path content u d Hfs).
  unfold TextIO.readlines. rewrite Hdec.
  assert (Forall line_char h) as Hh'.
  { eapply Forall_impl; [exact Hh|]. by intros c (? & ? & _). }
  assert (∃ x ls, TextIO.all_lines (h ++ rest) = (h ++ x) :: ls)
    as (x & ls & ->).
  { unfold TextIO.all_lines. rewrite split_lines_prefix by done.
    destruct (TextIO.split_lines rest) as [[|l ls] tl]; [|eauto].
    destruct (h ++ tl) as [|c s] eqn:Heq.
    - apply app_eq_nil in Heq as [-> _]. simpl in Hlen. lia.
    - exists tl, []. by rewrite <- Heq. }
  unfold Csv.records. simpl.
  rewrite (process_chars_overflow d h x Csv.parse_reset);
    [done|done|by left|simpl; lia|simpl; lia].
Qed.

Lemma X15_witness :
  is_empty_csv CHUNK_SIZE ["wide.csv"] [COMMA] (start long_header_fs)
  = (Return false,
     emit (start long_header_fs)
       [(stderr, WarningCouldNotProcess ["wide.csv"]
                   (csv_Error FieldLargerThanLimit))]).
Proof.
  apply (X15_oversized_field_is_reported_and_kept CHUNK_SIZE
           (start long_header_fs) ["wide.csv"] long_header true COMMA
           (replicate (N.to_nat 131073) 120) []).
  - apply lookup_singleton_eq.
  - rewrite app_nil_r. unfold long_header.
    rewrite decode_ascii by (apply Forall_replicate; reflexivity).
    by rewrite fmap_replicate.
  - apply Forall_replicate. repeat split; discriminate.
  - rewrite length_replicate, N2Nat.id. reflexivity.
Defined.

(** ** The delimiter block once more *)

(** X16.  What the delimiter block of [main] yields is never changed by a
    second pass through the block: the two characters it produces are no
    aliases, and every other string it leaves alone. *)
Theorem X16_special_delimiter_is_idempotent
    (unicode_lower : str → str) (arg : str) :
  special_delimiter unicode_lower (special_delimiter unicode_lower arg)
  = special_delimiter unicode_lower arg.
Proof.
  destruct (decide (lower unicode_lower arg = str_of "pipe")) as [Hp | Hp].
  { rewrite (special_delimiter_pipe unicode_lower arg Hp).
    apply special_delimiter_other; by rewrite lower_ascii. }
  destruct (decide (lower unicode_lower arg = str_of "tab")) as [Ht | Ht].
  { rewrite (special_delimiter_tab unicode_lower arg Ht).
    apply special_delimiter_other; by rewrite lower_ascii. }
  rewrite (special_delimiter_other unicode_lower arg Hp Ht).
  by apply special_delimiter_other.
Qed.
